(** * A chained hash table of contacts (hash_table.py)

    Shallow embedding of the three classes of [hash_table.py] and of the
    four methods of [HashTable], over an explicit object store.

    Python objects are mutable and are compared by identity when they are
    handed around, so [Contact] and [Node] instances live in a store indexed
    by addresses; a [Node] points at its [Contact] and at its successor by
    address.  The methods are written in a small state-and-exception monad
    over that store. *)

From Stdlib Require Import ZArith Lia Ascii.
From stdpp Require Import base option list gmap strings pretty.

Local Open Scope Z_scope.
Local Open Scope string_scope.
Local Open Scope list_scope.

(** ** Python values that may be passed as [name] or [number]

    The annotations say [str], but nothing is checked at run time, and the
    code calls [str(...)] on what it receives.  Two kinds of values are
    modelled: strings and (unbounded) integers. *)

Inductive pyval : Type :=
  | PStr (s : string)
  | PInt (z : Z).

#[global] Instance pyval_eq_dec : EqDecision pyval.
Proof. solve_decision. Defined.

(** [str(v)]: a string is returned as it is, an integer in decimal. *)
Definition py_str (v : pyval) : string :=
  match v with
  | PStr s => s
  | PInt z => pretty z
  end.

(** [a == b]: values of the two kinds are never equal to each other. *)
Definition py_eq (a b : pyval) : bool :=
  match a, b with
  | PStr s, PStr t => bool_decide (s = t)
  | PInt x, PInt y => bool_decide (x = y)
  | _, _ => false
  end.

(** [ord(c)] of a character.  Strings are sequences of characters with
    codes 0 to 255. *)
Definition ord (c : ascii) : Z := Z.of_nat (nat_of_ascii c).

(** [sum(ord(c) for c in s)]: Python's [sum] starts from 0 and adds the
    items from left to right. *)
Definition sum_ord (s : string) : Z :=
  fold_left (fun acc c => acc + ord c) (String.list_ascii_of_string s) 0.

(** [sep.join(parts)] *)
Fixpoint join (sep : string) (parts : list string) : string :=
  match parts with
  | [] => ""
  | [p] => p
  | p :: ps => p +:+ sep +:+ join sep ps
  end.

(** ** Objects and the store *)

Definition loc := positive.

(** class Contact: attributes [name] and [number]. *)
Record Contact : Type := mkContact {
  name : pyval;
  number : pyval
}.

(** class Node: [key], [value] (a reference to a Contact), [next]
    (a reference to a Node, or None). *)
Record Node : Type := mkNode {
  key : pyval;
  value : loc;
  next : option loc
}.

(** class HashTable: [size] and [data], together with the store holding
    the Contact and Node objects. *)
Record HashTable : Type := mkTable {
  contacts : gmap loc Contact;
  nodes : gmap loc Node;
  size : Z;
  data : list (option loc)
}.

#[global] Instance Contact_eq_dec : EqDecision Contact.
Proof. solve_decision. Defined.
#[global] Instance Node_eq_dec : EqDecision Node.
Proof. solve_decision. Defined.

(** ** Exceptions and the monad *)

Inductive exn : Type :=
  | ValueError         (* raised by HashTable.__init__ *)
  | ZeroDivisionError  (* [x % 0] *)
  | IndexError         (* list index out of range *)
  | DanglingRef        (* an address without an object: no Python counterpart *)
  | Diverges.          (* a [while] loop that runs around a cyclic chain *)

Inductive result (A : Type) : Type :=
  | Ok (a : A)
  | Raise (e : exn).
Arguments Ok {A} a.
Arguments Raise {A} e.

Definition M (A : Type) : Type := HashTable -> result (A * HashTable).

#[global] Instance M_ret : MRet M := fun A (a : A) t => Ok (a, t).
#[global] Instance M_bind : MBind M := fun A B (k : A -> M B) (m : M A) t =>
  match m t with
  | Ok (a, t') => k a t'
  | Raise e => Raise e
  end.
Definition raise {A} (e : exn) : M A := fun _ => Raise e.

(** *** Primitive reads and writes *)

(** Index of a Python list access [xs[i]]: a negative [i] counts from the
    end; anything outside [-len, len) is an IndexError. *)
Definition py_index (len i : Z) : option nat :=
  if bool_decide (0 <= i < len) then Some (Z.to_nat i)
  else if bool_decide (- len <= i < 0) then Some (Z.to_nat (len + i))
  else None.

(** [self.size] *)
Definition get_size : M Z := fun t => Ok (size t, t).

(** [self.data[i]] *)
Definition get_data (i : Z) : M (option loc) := fun t =>
  match py_index (Z.of_nat (length (data t))) i with
  | Some n => match data t !! n with
              | Some p => Ok (p, t)
              | None => Raise IndexError
              end
  | None => Raise IndexError
  end.

(** [self.data[i] = p] *)
Definition set_data (i : Z) (p : option loc) : M unit := fun t =>
  match py_index (Z.of_nat (length (data t))) i with
  | Some n => Ok (tt, mkTable (contacts t) (nodes t) (size t) (<[n := p]> (data t)))
  | None => Raise IndexError
  end.

(** Reading the Node, respectively the Contact, at an address. *)
Definition get_node (l : loc) : M Node := fun t =>
  match nodes t !! l with
  | Some n => Ok (n, t)
  | None => Raise DanglingRef
  end.

Definition get_contact (l : loc) : M Contact := fun t =>
  match contacts t !! l with
  | Some c => Ok (c, t)
  | None => Raise DanglingRef
  end.

(** [c.number = v] on the Contact at address [l]. *)
Definition set_number (l : loc) (v : pyval) : M unit := fun t =>
  match contacts t !! l with
  | Some c => Ok (tt, mkTable (<[l := mkContact (name c) v]> (contacts t))
                              (nodes t) (size t) (data t))
  | None => Raise DanglingRef
  end.

(** [n.next = p] on the Node at address [l]. *)
Definition set_next (l : loc) (p : option loc) : M unit := fun t =>
  match nodes t !! l with
  | Some n => Ok (tt, mkTable (contacts t)
                              (<[l := mkNode (key n) (value n) p]> (nodes t))
                              (size t) (data t))
  | None => Raise DanglingRef
  end.

(** ** class Contact *)

(** [Contact(name, number)]: allocates a new object; both attributes are
    passed through [str]. *)
Definition Contact_init (nm num : pyval) : M loc := fun t =>
  let l := fresh (dom (contacts t)) in
  Ok (l, mkTable (<[l := mkContact (PStr (py_str nm)) (PStr (py_str num))]> (contacts t))
                 (nodes t) (size t) (data t)).

(** [Contact.__str__]: [f"{self.name}: {self.number}"]. *)
Definition Contact_str (c : Contact) : string :=
  py_str (name c) +:+ ": " +:+ py_str (number c).

(** ** class Node *)

(** [Node(key, value)]: allocates a new object; [key] is stored as it was
    given, [next] starts as None. *)
Definition Node_init (k : pyval) (v : loc) : M loc := fun t =>
  let l := fresh (dom (nodes t)) in
  Ok (l, mkTable (contacts t) (<[l := mkNode k v None]> (nodes t)) (size t) (data t)).

(** ** class HashTable *)

(** [HashTable(size)], with [size] defaulting to 10. *)
Definition HashTable_init (sz : option Z) : result HashTable :=
  let size := default 10 sz in
  if bool_decide (size <= 0) then Raise ValueError
  else Ok (mkTable ∅ ∅ size (replicate (Z.to_nat size) None)).

(** [hash_function(key)]: [sum(ord(c) for c in str(key)) % self.size]. *)
Definition hash_function (k : pyval) : M Z :=
  sz ← get_size;
  if bool_decide (sz = 0) then raise ZeroDivisionError
  else mret (sum_ord (py_str k) mod sz).

(** Bound on the iterations of a [while curr is not None] loop: a chain
    that ends visits every Node at most once. *)
Definition loop_fuel : M nat := fun t => Ok (S (base.size (nodes t)), t).

(** The loop of [insert]; returns whether it left through [return]. *)
Fixpoint insert_loop (fuel : nat) (curr : option loc) (nm num : pyval) : M bool :=
  match curr with
  | None => mret false
  | Some l =>
      match fuel with
      | O => raise Diverges
      | S fuel' =>
          n ← get_node l;
          if py_eq (key n) nm then
            set_number (value n) num;; mret true
          else insert_loop fuel' (next n) nm num
      end
  end.

Definition insert (nm num : pyval) : M unit :=
  idx ← hash_function nm;
  head ← get_data idx;
  fuel ← loop_fuel;
  updated ← insert_loop fuel head nm num;
  if updated : bool then mret tt
  else
    new_contact ← Contact_init nm num;
    new_node ← Node_init nm new_contact;
    set_next new_node head ;;
    set_data idx (Some new_node).

(** The loop of [search]. *)
Fixpoint search_loop (fuel : nat) (curr : option loc) (nm : pyval) : M (option loc) :=
  match curr with
  | None => mret None
  | Some l =>
      match fuel with
      | O => raise Diverges
      | S fuel' =>
          n ← get_node l;
          if py_eq (key n) nm then mret (Some (value n))
          else search_loop fuel' (next n) nm
      end
  end.

(** [search(name)]: a reference to the Contact found, or None. *)
Definition search (nm : pyval) : M (option loc) :=
  idx ← hash_function nm;
  head ← get_data idx;
  fuel ← loop_fuel;
  search_loop fuel head nm.

(** The inner loop of [print_table]: [parts] grows by [append]. *)
Fixpoint parts_loop (fuel : nat) (curr : option loc) (parts : list string)
  : M (list string) :=
  match curr with
  | None => mret parts
  | Some l =>
      match fuel with
      | O => raise Diverges
      | S fuel' =>
          n ← get_node l;
          c ← get_contact (value n);
          parts_loop fuel' (next n) (parts ++ ["- " +:+ Contact_str c])
      end
  end.

(** The body of the [for] loop: the line printed for index [i]. *)
Definition print_line (i : Z) : M string :=
  node ← get_data i;
  match node with
  | None => mret ("Index " +:+ pretty i +:+ ": Empty")
  | Some _ =>
      fuel ← loop_fuel;
      parts ← parts_loop fuel node [];
      mret ("Index " +:+ pretty i +:+ ": " +:+ join " " parts)
  end.

Fixpoint for_each (range : list Z) (out : list string) : M (list string) :=
  match range with
  | [] => mret out
  | i :: range' => line ← print_line i; for_each range' (out ++ [line])
  end.

(** [print_table()]: the lines handed to [print], in order. *)
Definition print_table : M (list string) :=
  sz ← get_size;
  for_each (seqZ 0 sz) [].

(** [inserts ops]: the calls [insert(name, number)] for the pairs of [ops],
    in order. *)
Fixpoint inserts (ops : list (pyval * pyval)) : M unit :=
  match ops with
  | [] => mret tt
  | (nm, num) :: ops' => insert nm num;; inserts ops'
  end.

(** ** Reading the store back as chains

    [walk fuel nd p] follows [next] from [p] and lists the Nodes met, with
    their addresses, head first. *)
Fixpoint walk (fuel : nat) (nd : gmap loc Node) (p : option loc)
  : option (list (loc * Node)) :=
  match p with
  | None => Some []
  | Some l =>
      match fuel with
      | O => None
      | S fuel' =>
          match nd !! l with
          | None => None
          | Some n => cons (l, n) <$> walk fuel' nd (next n)
          end
      end
  end.

Arguments walk !fuel nd !p.

(** The same as a relation, without fuel: [chain nd p ch] when following
    [next] from [p] meets the Nodes of [ch] and then None. *)
Inductive chain (nd : gmap loc Node) : option loc -> list (loc * Node) -> Prop :=
  | chain_nil : chain nd None []
  | chain_cons l n ch :
      nd !! l = Some n -> chain nd (next n) ch -> chain nd (Some l) ((l, n) :: ch).

(** The chain of bucket [i], and the chains of all buckets. *)
Definition bucket (t : HashTable) (i : nat) : option (list (loc * Node)) :=
  p ← data t !! i; walk (S (base.size (nodes t))) (nodes t) p.

Definition chains (t : HashTable) : option (list (list (loc * Node))) :=
  mapM (walk (S (base.size (nodes t))) (nodes t)) (data t).

(** The index [sum(ord(c) for c in str(k)) % size] as a position in [data]. *)
Definition bucket_index (t : HashTable) (k : pyval) : nat :=
  Z.to_nat (sum_ord (py_str k) mod size t).

Definition keys (ch : list (loc * Node)) : list pyval := (fun e => key e.2) <$> ch.
Definition values (ch : list (loc * Node)) : list loc := (fun e => value e.2) <$> ch.

(** The first entry of a chain whose key equals [nm]. *)
Definition find_key (nm : pyval) (ch : list (loc * Node)) : option (loc * Node) :=
  snd <$> list_find (fun e => py_eq (key e.2) nm = true) ch.

(** What a bucket holds, without addresses: each key with the current
    attributes of its Contact. *)
Definition entry_view (t : HashTable) (e : loc * Node) : option (pyval * Contact) :=
  c ← contacts t !! value e.2; Some (key e.2, c).

Definition bucket_view (t : HashTable) (i : nat) : option (list (pyval * Contact)) :=
  ch ← bucket t i; mapM (entry_view t) ch.

(** Number of entries with key [k] in the whole table. *)
Definition count_key (t : HashTable) (k : pyval) : option nat :=
  chs ← chains t;
  Some (length (filter (fun e => py_eq (key e.2) k = true) (concat chs))).

(** ** The invariant of the tables that the methods build

    Every bucket holds a chain that ends; an entry sits in the bucket its
    key hashes to and refers to a Contact of the store; the keys of a chain
    are pairwise different; no Contact is referred to by two entries. *)
Definition bucket_ok (t : HashTable) (i : Z) (ch : list (loc * Node)) : Prop :=
  Forall (fun e => sum_ord (py_str (key e.2)) mod size t = i
                   /\ is_Some (contacts t !! value e.2)) ch
  /\ NoDup (keys ch).

Definition good (t : HashTable) (chs : list (list (loc * Node))) : Prop :=
  0 < size t
  /\ Z.of_nat (length (data t)) = size t
  /\ Forall2 (bucket_ok t) (seqZ 0 (size t)) chs
  /\ NoDup (values (concat chs)).

#[global] Instance bucket_ok_dec t i ch : Decision (bucket_ok t i ch).
Proof. unfold bucket_ok. apply _. Defined.
#[global] Instance good_dec t chs : Decision (good t chs).
Proof. unfold good. apply _. Defined.

Definition well_formed (t : HashTable) : bool :=
  match chains t with
  | Some chs => bool_decide (good t chs)
  | None => false
  end.

(** ** The two outcomes of [insert] *)

(** The table after the assignment [curr.value.number = number] on the
    Contact at [l], which holds [c]. *)
Definition updated (t : HashTable) (l : loc) (c : Contact) (num : pyval) : HashTable :=
  mkTable (<[l := mkContact (name c) num]> (contacts t)) (nodes t) (size t) (data t).

(** The table after a new Contact and a new Node were allocated and the
    Node was made the head of bucket [i], in front of [head]. *)
Definition prepended (t : HashTable) (i : nat) (head : option loc) (nm num : pyval)
  : HashTable :=
  let lc := fresh (dom (contacts t)) in
  let ln := fresh (dom (nodes t)) in
  mkTable (<[lc := mkContact (PStr (py_str nm)) (PStr (py_str num))]> (contacts t))
          (<[ln := mkNode nm lc head]> (nodes t))
          (size t)
          (<[i := Some ln]> (data t)).

(** ** The dump, as the specification words it *)

(** How [print_table] shows one entry. *)
Definition render (e : pyval * Contact) : string := "- " +:+ Contact_str e.2.

(** The line of bucket [i] whose entries are [vs], head first. *)
Definition dump_line (i : Z) (vs : list (pyval * Contact)) : string :=
  match vs with
  | [] => "Index " +:+ pretty i +:+ ": Empty"
  | _ :: _ => "Index " +:+ pretty i +:+ ": " +:+ join " " (render <$> vs)
  end.

(** One line per bucket index, in ascending order. *)
Definition dump (t : HashTable) : list string :=
  (fun i => dump_line i (default [] (bucket_view t (Z.to_nat i)))) <$> seqZ 0 (size t).

(** ** The hash, as the specification words it *)

(** The sum of the character codes of a string, as the specification
    words it. *)
Fixpoint char_code_sum (s : string) : Z :=
  match s with
  | EmptyString => 0
  | String c s' => ord c + char_code_sum s'
  end.

(** ** Tables used as concrete inputs *)

(** [HashTable(10)] *)
Definition empty10 : HashTable := mkTable ∅ ∅ 10 (replicate 10 None).

(** The table of the demonstration script after its first two inserts. *)
Definition demo : HashTable :=
  match inserts [(PStr "John", PStr "909-876-1234");
                 (PStr "Rebecca", PStr "111-555-0002")] empty10 with
  | Ok (_, t) => t
  | Raise _ => empty10
  end.

(** ** A table read as a map from names to Contacts *)

(** What [search(k)] finds: the attributes of the Contact returned, None
    when [search] returns None. *)
Definition lookup_contact (t : HashTable) (k : pyval) : option Contact :=
  match search k t with
  | Ok (Some l, t') => contacts t' !! l
  | _ => None
  end.

(** The Contact of [nm] once [insert(nm, num)] has run, given the one it
    had: the update path assigns [num] as it is, the new-entry path builds
    [Contact(nm, num)]. *)
Definition contact_after (cur : option Contact) (nm num : pyval) : Contact :=
  match cur with
  | Some c => mkContact (name c) num
  | None => mkContact (PStr (py_str nm)) (PStr (py_str num))
  end.

(** The Contact of [k] after the inserts [ops], starting from [cur]. *)
Fixpoint model (ops : list (pyval * pyval)) (k : pyval) (cur : option Contact)
  : option Contact :=
  match ops with
  | [] => cur
  | (nm, num) :: ops' =>
      model ops' k (if decide (nm = k) then Some (contact_after cur nm num) else cur)
  end.

(** ** A bucket as a list of pairs

    [insert] on the view of a bucket: the first pair with the key gets the
    number, or a new pair is put in front. *)
Fixpoint view_find (k : pyval) (vs : list (pyval * Contact)) : option Contact :=
  match vs with
  | [] => None
  | (k', c) :: vs' => if py_eq k' k then Some c else view_find k vs'
  end.

Fixpoint view_update (nm num : pyval) (vs : list (pyval * Contact))
  : option (list (pyval * Contact)) :=
  match vs with
  | [] => None
  | (k, c) :: vs' =>
      if py_eq k nm then Some ((k, mkContact (name c) num) :: vs')
      else cons (k, c) <$> view_update nm num vs'
  end.

Definition view_insert (nm num : pyval) (vs : list (pyval * Contact))
  : list (pyval * Contact) :=
  default ((nm, mkContact (PStr (py_str nm)) (PStr (py_str num))) :: vs)
          (view_update nm num vs).

(** ** Sequences of calls *)

Inductive call : Type :=
  | CallInsert (nm num : pyval)
  | CallSearch (nm : pyval)
  | CallPrint
  | CallHash (k : pyval).

Definition run_call (c : call) : M unit :=
  match c with
  | CallInsert nm num => insert nm num
  | CallSearch nm => search nm;; mret tt
  | CallPrint => print_table;; mret tt
  | CallHash k => hash_function k;; mret tt
  end.

Fixpoint run_calls (cs : list call) : M unit :=
  match cs with
  | [] => mret tt
  | c :: cs' => run_call c;; run_calls cs'
  end.

(** * Proofs *)

(** ** Values *)

Lemma py_eq_true a b : py_eq a b = true <-> a = b.
Proof.
  destruct a, b; simpl; rewrite ?bool_decide_eq_true; split; congruence.
Qed.

Lemma py_eq_false a b : py_eq a b = false <-> a <> b.
Proof.
  rewrite <- py_eq_true. destruct (py_eq a b); split; congruence.
Qed.

Lemma py_eq_refl a : py_eq a a = true.
Proof. by apply py_eq_true. Qed.

Lemma sum_ord_from acc l :
  fold_left (fun a c => a + ord c) l acc = acc + fold_left (fun a c => a + ord c) l 0.
Proof.
  revert acc. induction l as [|c l IH]; intros acc; simpl; [lia|].
  rewrite (IH (acc + ord c)), (IH (0 + ord c)). lia.
Qed.

Lemma sum_ord_empty : sum_ord "" = 0.
Proof. reflexivity. Qed.

Lemma sum_ord_cons c s : sum_ord (String c s) = ord c + sum_ord s.
Proof. unfold sum_ord. simpl. rewrite sum_ord_from. lia. Qed.

(** ** Running the monad *)

Lemma bind_Ok {A B} (m : M A) (k : A -> M B) t a t' :
  m t = Ok (a, t') -> (m ≫= k) t = k a t'.
Proof. intros H. unfold mbind, M_bind. by rewrite H. Qed.

Lemma bind_inv {A B} (m : M A) (k : A -> M B) t b t'' :
  (m ≫= k) t = Ok (b, t'') -> exists a t', m t = Ok (a, t') /\ k a t' = Ok (b, t'').
Proof.
  unfold mbind, M_bind. destruct (m t) as [[a t']|e]; [eauto|done].
Qed.

(** ** Indexing *)

Lemma py_index_in_range len i :
  0 <= i < len -> py_index len i = Some (Z.to_nat i).
Proof. intros H. unfold py_index. by rewrite bool_decide_eq_true_2. Qed.

Lemma hash_range sz s : 0 < sz -> 0 <= sum_ord s mod sz < sz.
Proof. intros H. by apply Z.mod_pos_bound. Qed.

Lemma hash_function_Ok t k :
  size t <> 0 -> hash_function k t = Ok (sum_ord (py_str k) mod size t, t).
Proof.
  intros H. unfold hash_function.
  rewrite (bind_Ok _ _ t (size t) t) by done.
  by rewrite bool_decide_eq_false_2.
Qed.

Lemma get_data_Ok t i p :
  data t !! i = Some p -> get_data (Z.of_nat i) t = Ok (p, t).
Proof.
  intros H. unfold get_data.
  rewrite py_index_in_range by (apply lookup_lt_Some in H; lia).
  by rewrite Nat2Z.id, H.
Qed.

(** ** Chains *)

Lemma walk_more_fuel f f' nd p ch :
  walk f nd p = Some ch -> (f <= f')%nat -> walk f' nd p = Some ch.
Proof.
  revert f' p ch. induction f as [|f IH]; intros f' p ch H Hle.
  - destruct p; simpl in H; [done|]. injection H as <-. by destruct f'.
  - destruct p as [l|]; [|by destruct f'].
    destruct f' as [|f']; [lia|]. simpl in *.
    destruct (nd !! l) as [n|]; [|done].
    destruct (walk f nd (next n)) as [r|] eqn:E; [|done].
    by rewrite (IH f' _ _ E) by lia.
Qed.

Lemma walk_alloc f nd p ch l n :
  walk f nd p = Some ch -> nd !! l = None -> walk f (<[l := n]> nd) p = Some ch.
Proof.
  revert p ch. induction f as [|f IH]; intros p ch H Hl.
  - by destruct p.
  - destruct p as [l'|]; [|done]. simpl in *.
    destruct (nd !! l') as [n'|] eqn:En; [|done].
    rewrite lookup_insert_ne by congruence. rewrite En.
    destruct (walk f nd (next n')) as [r|] eqn:E; [|done].
    by rewrite (IH _ _ E).
Qed.

(** *** Chains that end, and the bound on the loops *)

Lemma walk_chain f nd p ch : walk f nd p = Some ch -> chain nd p ch.
Proof.
  revert p ch. induction f as [|f IH]; intros [l|] ch H; simpl in H;
    try done; try (injection H as <-; constructor).
  destruct (nd !! l) as [n|] eqn:En; [|done].
  destruct (walk f nd (next n)) as [r|] eqn:E; [|done].
  injection H as <-. constructor; [done|]. by apply IH.
Qed.

Lemma chain_walk f nd p ch :
  chain nd p ch -> (length ch <= f)%nat -> walk f nd p = Some ch.
Proof.
  intros H. revert f. induction H as [|l n ch Hn _ IH]; intros f Hf.
  - by destruct f.
  - destruct f as [|f]; simpl in *; [lia|].
    rewrite Hn, IH by lia. done.
Qed.

Lemma chain_functional nd p ch ch' : chain nd p ch -> chain nd p ch' -> ch = ch'.
Proof.
  intros H. revert ch'. induction H as [|l n ch Hn _ IH]; intros ch' H'.
  - by inversion H'.
  - inversion H' as [|l' n' ch0 Hn' Hch0]; subst.
    rewrite Hn in Hn'. injection Hn' as <-. f_equal. by apply IH.
Qed.

Lemma chain_suffix nd p pre l n post :
  chain nd p (pre ++ (l, n) :: post) -> chain nd (Some l) ((l, n) :: post).
Proof.
  revert p. induction pre as [|x pre IH]; intros p H; simpl in H.
  - inversion H; subst. by constructor.
  - inversion H; subst. by eapply IH.
Qed.

Lemma chain_dom nd p ch l : chain nd p ch -> l ∈ ch.*1 -> l ∈ dom nd.
Proof.
  induction 1 as [|l' n ch Hn _ IH]; simpl.
  - by intros ?%elem_of_nil.
  - intros [->|Hin]%elem_of_cons; [|by apply IH].
    apply elem_of_dom. by eexists.
Qed.

(** A chain that ends meets no Node twice. *)
Lemma chain_NoDup nd p ch : chain nd p ch -> NoDup ch.*1.
Proof.
  induction 1 as [|l n ch Hn Hch IH]; simpl; constructor; [|done].
  intros ([l' n'] & Hl & Hin)%list_elem_of_fmap. simpl in Hl. subst l'.
  apply list_elem_of_split in Hin as (pre & post & ->).
  pose proof (chain_suffix _ _ _ _ _ _ Hch) as Hsuf.
  pose proof (chain_functional _ _ _ _ Hsuf (chain_cons nd l n _ Hn Hch)) as Heq.
  apply (f_equal length) in Heq. rewrite !length_cons, length_app, length_cons in Heq.
  lia.
Qed.

Lemma chain_length nd p ch : chain nd p ch -> (length ch <= base.size nd)%nat.
Proof.
  intros H. rewrite <- (length_fmap fst ch).
  rewrite <- (size_list_to_set (C := gset loc)) by by eapply chain_NoDup.
  rewrite <- size_dom. apply subseteq_size.
  intros l Hl%elem_of_list_to_set. by eapply chain_dom.
Qed.

(** So the bound [loop_fuel] is enough for every chain that ends: the
    loops report [Diverges] on cyclic chains only. *)
Lemma walk_fuel_enough nd p ch :
  chain nd p ch -> walk (S (base.size nd)) nd p = Some ch.
Proof.
  intros H. apply chain_walk; [done|]. pose proof (chain_length _ _ _ H). lia.
Qed.

Lemma find_key_cons nm e ch :
  find_key nm (e :: ch) = if py_eq (key e.2) nm then Some e else find_key nm ch.
Proof.
  unfold find_key. simpl. destruct (py_eq (key e.2) nm) eqn:E.
  - by rewrite decide_True.
  - rewrite decide_False by congruence.
    by destruct (list_find _ ch) as [[? ?]|].
Qed.

Lemma find_key_Some nm ch e :
  find_key nm ch = Some e ->
  exists pre post, ch = pre ++ e :: post /\ key e.2 = nm /\ nm ∉ keys pre.
Proof.
  revert e. induction ch as [|x ch IH]; intros e; [done|].
  rewrite find_key_cons. destruct (py_eq (key x.2) nm) eqn:E.
  - intros [= ->]. exists [], ch. apply py_eq_true in E.
    split_and!; [done..|]. apply not_elem_of_nil.
  - intros H. destruct (IH _ H) as (pre & post & -> & Hk & Hpre).
    exists (x :: pre), post. split_and!; [done..|].
    simpl. apply not_elem_of_cons. split; [|done].
    apply py_eq_false in E. congruence.
Qed.

Lemma find_key_None nm ch : find_key nm ch = None <-> nm ∉ keys ch.
Proof.
  induction ch as [|x ch IH]; [split; [intros _; apply not_elem_of_nil|done]|].
  rewrite find_key_cons. simpl. rewrite not_elem_of_cons.
  destruct (py_eq (key x.2) nm) eqn:E.
  - apply py_eq_true in E. split; [done|]. intros [? _]. congruence.
  - apply py_eq_false in E. rewrite IH. split; [|tauto]. intros ?; split; congruence.
Qed.

(** ** The three loops, over a chain that ends *)

Section loops.
Context (t : HashTable).

Lemma get_node_Ok l n : nodes t !! l = Some n -> get_node l t = Ok (n, t).
Proof. intros H. unfold get_node. by rewrite H. Qed.

Lemma get_contact_Ok l c : contacts t !! l = Some c -> get_contact l t = Ok (c, t).
Proof. intros H. unfold get_contact. by rewrite H. Qed.

Lemma search_loop_spec p ch nm f :
  chain (nodes t) p ch -> (length ch <= f)%nat ->
  search_loop f p nm t = Ok ((fun e => value e.2) <$> find_key nm ch, t).
Proof.
  intros H. revert f. induction H as [|l n ch Hn _ IH]; intros f Hf.
  - by destruct f.
  - destruct f as [|f]; simpl in *; [lia|].
    rewrite (bind_Ok _ _ _ _ _ (get_node_Ok _ _ Hn)).
    rewrite find_key_cons. simpl. destruct (py_eq (key n) nm); [done|].
    apply IH. lia.
Qed.

Lemma insert_loop_absent p ch nm num f :
  chain (nodes t) p ch -> (length ch <= f)%nat -> find_key nm ch = None ->
  insert_loop f p nm num t = Ok (false, t).
Proof.
  intros H. revert f. induction H as [|l n ch Hn _ IH]; intros f Hf Hk.
  - by destruct f.
  - destruct f as [|f]; simpl in *; [lia|].
    rewrite (bind_Ok _ _ _ _ _ (get_node_Ok _ _ Hn)).
    rewrite find_key_cons in Hk. simpl in Hk.
    destruct (py_eq (key n) nm); [done|]. apply IH; [lia|done].
Qed.

Lemma insert_loop_found p ch nm num e c f :
  chain (nodes t) p ch -> (length ch <= f)%nat -> find_key nm ch = Some e ->
  contacts t !! value e.2 = Some c ->
  insert_loop f p nm num t =
    Ok (true, mkTable (<[value e.2 := mkContact (name c) num]> (contacts t))
                      (nodes t) (size t) (data t)).
Proof.
  intros H. revert f. induction H as [|l n ch Hn _ IH]; intros f Hf Hk Hc.
  - done.
  - destruct f as [|f]; simpl in *; [lia|].
    rewrite (bind_Ok _ _ _ _ _ (get_node_Ok _ _ Hn)).
    rewrite find_key_cons in Hk. simpl in Hk.
    destruct (py_eq (key n) nm); [|apply IH; [lia|done..]].
    injection Hk as <-. simpl in Hc.
    erewrite bind_Ok; [done|]. unfold set_number. by rewrite Hc.
Qed.

Lemma parts_loop_spec p ch vs acc f :
  chain (nodes t) p ch -> (length ch <= f)%nat ->
  Forall2 (fun e v => entry_view t e = Some v) ch vs ->
  parts_loop f p acc t = Ok (acc ++ (render <$> vs), t).
Proof.
  intros H. revert f vs acc.
  induction H as [|l n ch Hn _ IH]; intros f vs acc Hf Hv.
  - apply Forall2_nil_inv_l in Hv as ->. destruct f; simpl; by rewrite app_nil_r.
  - destruct f as [|f]; simpl in *; [lia|].
    apply Forall2_cons_inv_l in Hv as (v & vr & Hv & Hr & ->).
    unfold entry_view in Hv. simpl in Hv.
    destruct (contacts t !! value n) as [c|] eqn:Ec; [|done].
    injection Hv as <-.
    rewrite (bind_Ok _ _ _ _ _ (get_node_Ok _ _ Hn)).
    rewrite (bind_Ok _ _ _ _ _ (get_contact_Ok _ _ Ec)).
    rewrite (IH f vr) by (lia || done). simpl. by rewrite <- app_assoc.
Qed.

(** A bucket read with the bound of the loops is a chain within that
    bound. *)
Lemma walk_bounded p ch :
  walk (S (base.size (nodes t))) (nodes t) p = Some ch ->
  chain (nodes t) p ch /\ (length ch <= S (base.size (nodes t)))%nat.
Proof.
  intros H%walk_chain. split; [done|].
  pose proof (chain_length _ _ _ H). lia.
Qed.
End loops.

(** ** Consequences of the invariant *)

Lemma well_formed_inv t :
  well_formed t = true -> exists chs, chains t = Some chs /\ good t chs.
Proof.
  unfold well_formed. destruct (chains t) as [chs|]; [|done].
  intros H. apply bool_decide_eq_true in H. eauto.
Qed.

Lemma well_formed_intro t chs :
  chains t = Some chs -> good t chs -> well_formed t = true.
Proof.
  intros E H. unfold well_formed. rewrite E. by apply bool_decide_eq_true.
Qed.

Lemma bucket_Some t i ch :
  bucket t i = Some ch ->
  exists p, data t !! i = Some p
            /\ walk (S (base.size (nodes t))) (nodes t) p = Some ch.
Proof.
  unfold bucket. destruct (data t !! i) as [p|]; [|done]. intros H. by exists p.
Qed.

Lemma chains_bucket t chs i : chains t = Some chs -> bucket t i = chs !! i.
Proof.
  unfold chains, bucket. rewrite mapM_Some. intros H.
  destruct (data t !! i) as [p|] eqn:E; simpl.
  - destruct (Forall2_lookup_l _ _ _ _ _ H E) as (ch & -> & Hw). done.
  - apply Forall2_length in H. apply lookup_ge_None in E.
    symmetry. apply lookup_ge_None. lia.
Qed.

Lemma chains_length t chs : chains t = Some chs -> length chs = length (data t).
Proof.
  unfold chains. rewrite mapM_Some. intros H. by apply Forall2_length in H.
Qed.

Lemma chains_lookup t chs i p :
  chains t = Some chs -> data t !! i = Some p ->
  exists ch, chs !! i = Some ch /\ walk (S (base.size (nodes t))) (nodes t) p = Some ch.
Proof.
  unfold chains. rewrite mapM_Some. intros H E.
  destruct (Forall2_lookup_l _ _ _ _ _ H E) as (ch & ? & ?). eauto.
Qed.

Lemma good_bucket t chs i ch :
  good t chs -> chs !! i = Some ch -> bucket_ok t (Z.of_nat i) ch.
Proof.
  intros (_ & _ & H & _) E.
  destruct (Forall2_lookup_r _ _ _ _ _ H E) as (j & Hj & Hok).
  apply lookup_seqZ in Hj as [-> _]. by rewrite Z.add_0_l in Hok.
Qed.

Lemma bucket_index_spec t k :
  0 < size t -> Z.of_nat (bucket_index t k) = sum_ord (py_str k) mod size t.
Proof.
  intros H. unfold bucket_index. pose proof (hash_range (size t) (py_str k) H). lia.
Qed.

Lemma bucket_index_lt t k :
  0 < size t -> Z.of_nat (length (data t)) = size t ->
  (bucket_index t k < length (data t))%nat.
Proof.
  intros H Hl. pose proof (bucket_index_spec t k H).
  pose proof (hash_range (size t) (py_str k) H). lia.
Qed.

(** Every bucket of a well-formed table has a chain. *)
Lemma well_formed_bucket t k :
  well_formed t = true -> exists ch, bucket t (bucket_index t k) = Some ch.
Proof.
  intros (chs & Hc & Hg)%well_formed_inv.
  rewrite (chains_bucket _ _ _ Hc). apply lookup_lt_is_Some.
  rewrite (chains_length _ _ Hc). destruct Hg as (? & ? & _).
  by apply bucket_index_lt.
Qed.

(** ** What [search] returns *)

Lemma search_spec t nm ch :
  0 < size t -> bucket t (bucket_index t nm) = Some ch ->
  search nm t = Ok ((fun e => value e.2) <$> find_key nm ch, t).
Proof.
  intros Hs (p & Ep & Hb)%bucket_Some.
  unfold search.
  rewrite (bind_Ok _ _ _ _ _ (hash_function_Ok t nm ltac:(lia))).
  rewrite <- bucket_index_spec by done.
  rewrite (bind_Ok _ _ _ _ _ (get_data_Ok _ _ _ Ep)).
  rewrite (bind_Ok _ _ t (S (base.size (nodes t))) t) by done.
  apply walk_bounded in Hb as [Hch Hlen]. by apply search_loop_spec.
Qed.

(** ** What [insert] does *)

Lemma insert_found t nm num ch e c :
  0 < size t -> bucket t (bucket_index t nm) = Some ch ->
  find_key nm ch = Some e -> contacts t !! value e.2 = Some c ->
  insert nm num t = Ok (tt, updated t (value e.2) c num).
Proof.
  intros Hs (p & Ep & Hb)%bucket_Some Hf Hc.
  unfold insert.
  rewrite (bind_Ok _ _ _ _ _ (hash_function_Ok t nm ltac:(lia))).
  rewrite <- bucket_index_spec by done.
  rewrite (bind_Ok _ _ _ _ _ (get_data_Ok _ _ _ Ep)).
  rewrite (bind_Ok _ _ t (S (base.size (nodes t))) t) by done.
  apply walk_bounded in Hb as [Hch Hlen].
  by rewrite (bind_Ok _ _ _ _ _ (insert_loop_found _ _ _ _ num _ _ _ Hch Hlen Hf Hc)).
Qed.

Lemma insert_absent t nm num head ch :
  0 < size t -> data t !! bucket_index t nm = Some head ->
  bucket t (bucket_index t nm) = Some ch -> find_key nm ch = None ->
  insert nm num t = Ok (tt, prepended t (bucket_index t nm) head nm num).
Proof.
  intros Hs Ep (p & Ep' & Hb)%bucket_Some Hf.
  rewrite Ep in Ep'. injection Ep' as <-.
  unfold insert.
  rewrite (bind_Ok _ _ _ _ _ (hash_function_Ok t nm ltac:(lia))).
  rewrite <- bucket_index_spec by done.
  rewrite (bind_Ok _ _ _ _ _ (get_data_Ok _ _ _ Ep)).
  rewrite (bind_Ok _ _ t (S (base.size (nodes t))) t) by done.
  apply walk_bounded in Hb as [Hch Hlen].
  rewrite (bind_Ok _ _ _ _ _ (insert_loop_absent _ _ _ _ num _ Hch Hlen Hf)).
  unfold mbind, M_bind, Contact_init, Node_init, set_next, set_data. simpl.
  rewrite lookup_insert_eq. simpl.
  rewrite py_index_in_range by (apply lookup_lt_Some in Ep; lia).
  rewrite Nat2Z.id, insert_insert_eq. done.
Qed.

(** ** The invariant is kept *)

Lemma elem_of_concat {A} (x : A) (ls : list (list A)) :
  x ∈ concat ls <-> exists l, l ∈ ls /\ x ∈ l.
Proof.
  induction ls as [|l0 ls IH]; simpl.
  - split; [by intros ?%elem_of_nil|by intros (l & ?%elem_of_nil & _)].
  - rewrite elem_of_app, IH. split.
    + intros [H|(l & H1 & H2)]; [exists l0|exists l]; split; try done.
      * apply list_elem_of_here.
      * by apply list_elem_of_further.
    + intros (l & [->|H1]%elem_of_cons & H2); [by left|right; eauto].
Qed.

Lemma concat_insert_cons {A} (ls : list (list A)) i l x :
  ls !! i = Some l -> concat (<[i := x :: l]> ls) ≡ₚ x :: concat ls.
Proof.
  intros H. rewrite <- (take_drop_middle _ _ _ H) at 2.
  rewrite insert_take_drop by (by eapply lookup_lt_Some).
  rewrite !concat_app. simpl. symmetry. apply Permutation_middle.
Qed.

Lemma good_elem t chs ch e :
  good t chs -> ch ∈ chs -> e ∈ ch -> is_Some (contacts t !! value e.2).
Proof.
  intros Hg (i & Hi)%list_elem_of_lookup He.
  destruct (good_bucket _ _ _ _ Hg Hi) as [Hall _].
  rewrite Forall_forall in Hall. by apply Hall.
Qed.

Lemma good_updated t chs l c num :
  good t chs -> contacts t !! l = Some c -> good (updated t l c num) chs.
Proof.
  intros (Hs & Hl & Hb & Hv) Hc. split_and!; [done..| |done]. simpl.
  eapply Forall2_impl; [exact Hb|]. intros i ch [Hall Hk]. split; [|done].
  eapply Forall_impl; [exact Hall|]. intros e [? ?]. split; [done|]. simpl.
  by apply lookup_insert_is_Some'; right.
Qed.

Lemma well_formed_updated t l c num :
  well_formed t = true -> contacts t !! l = Some c ->
  well_formed (updated t l c num) = true.
Proof.
  intros (chs & Hc & Hg)%well_formed_inv H.
  apply (well_formed_intro _ chs); [done|]. by apply good_updated.
Qed.

Lemma fresh_node t : nodes t !! fresh (dom (nodes t)) = None.
Proof. apply not_elem_of_dom, is_fresh. Qed.

Lemma fresh_contact t : contacts t !! fresh (dom (contacts t)) = None.
Proof. apply not_elem_of_dom, is_fresh. Qed.

Lemma chains_prepended t chs i head ch nm num :
  chains t = Some chs -> data t !! i = Some head -> chs !! i = Some ch ->
  chains (prepended t i head nm num) =
    Some (<[i := (fresh (dom (nodes t)),
                  mkNode nm (fresh (dom (contacts t))) head) :: ch]> chs).
Proof.
  intros Hc Hd Hi. destruct (chains_lookup _ _ _ _ Hc Hd) as (ch' & Hi' & Hw).
  rewrite Hi in Hi'. injection Hi' as <-.
  unfold chains in *. rewrite mapM_Some in *. simpl.
  rewrite map_size_insert_None by apply fresh_node.
  apply Forall2_insert.
  - eapply Forall2_impl; [exact Hc|]. intros p c Hp. simpl in Hp.
    apply walk_alloc; [|apply fresh_node].
    eapply walk_more_fuel; [exact Hp|lia].
  - change (walk (S (S ?f)) ?nd (Some ?l))
      with (match nd !! l with
            | Some n => cons (l, n) <$> walk (S f) nd (next n)
            | None => None
            end).
    rewrite lookup_insert_eq.
    change (next (mkNode ?k ?v ?p)) with p.
    by rewrite (walk_alloc _ _ _ _ _ _ Hw (fresh_node t)).
Qed.

Lemma good_prepended t chs ch nm num head :
  good t chs -> chs !! bucket_index t nm = Some ch -> nm ∉ keys ch ->
  good (prepended t (bucket_index t nm) head nm num)
       (<[bucket_index t nm := (fresh (dom (nodes t)),
            mkNode nm (fresh (dom (contacts t))) head) :: ch]> chs).
Proof.
  intros Hg Hi Hk. pose proof Hg as (Hs & Hl & Hb & Hv).
  split_and!; simpl.
  - done.
  - by rewrite length_insert.
  - assert (seqZ 0 (size t) !! bucket_index t nm = Some (Z.of_nat (bucket_index t nm))) as Hz.
    { apply lookup_seqZ. pose proof (bucket_index_lt t nm Hs Hl). lia. }
    rewrite <- (list_insert_id _ _ _ Hz). apply Forall2_insert.
    + eapply Forall2_impl; [exact Hb|]. intros i c [Hall Hn]. split; [|done].
      eapply Forall_impl; [exact Hall|]. intros e [? ?]. split; [done|]. simpl.
      by apply lookup_insert_is_Some'; right.
    + destruct (good_bucket _ _ _ _ Hg Hi) as [Hall Hn]. split.
      * constructor; simpl.
        { split; [by rewrite bucket_index_spec|]. rewrite lookup_insert_eq. eauto. }
        eapply Forall_impl; [exact Hall|]. intros e [? ?]. split; [done|]. simpl.
        by apply lookup_insert_is_Some'; right.
      * simpl. by constructor.
  - unfold values. rewrite (concat_insert_cons _ _ _ _ Hi). simpl.
    constructor; [|done]. intros (e & He & (c & Hc & Hin)%elem_of_concat)%list_elem_of_fmap.
    destruct (good_elem _ _ _ _ Hg Hc Hin) as [x Hx].
    rewrite <- He, fresh_contact in Hx. done.
Qed.

Lemma well_formed_prepended t ch nm num head :
  well_formed t = true -> data t !! bucket_index t nm = Some head ->
  bucket t (bucket_index t nm) = Some ch -> nm ∉ keys ch ->
  well_formed (prepended t (bucket_index t nm) head nm num) = true.
Proof.
  intros (chs & Hc & Hg)%well_formed_inv Hd Hb Hk.
  rewrite (chains_bucket _ _ _ Hc) in Hb.
  eapply well_formed_intro;
    [by apply chains_prepended|by apply good_prepended].
Qed.

Lemma insert_cases t nm num :
  well_formed t = true ->
  exists head ch,
    data t !! bucket_index t nm = Some head
    /\ bucket t (bucket_index t nm) = Some ch
    /\ ((exists e c, find_key nm ch = Some e
                     /\ contacts t !! value e.2 = Some c
                     /\ insert nm num t = Ok (tt, updated t (value e.2) c num))
        \/ (find_key nm ch = None
            /\ insert nm num t
               = Ok (tt, prepended t (bucket_index t nm) head nm num))).
Proof.
  intros Hwf. destruct (well_formed_bucket t nm Hwf) as [ch Hb].
  destruct (bucket_Some _ _ _ Hb) as (head & Hd & _).
  destruct (well_formed_inv _ Hwf) as (chs & Hc & Hg).
  pose proof Hg as (Hs & _).
  exists head, ch. split_and!; [done..|].
  destruct (find_key nm ch) as [e|] eqn:Hf.
  - left. destruct (find_key_Some _ _ _ Hf) as (pre & post & -> & _ & _).
    rewrite (chains_bucket _ _ _ Hc) in Hb.
    destruct (good_elem t chs (pre ++ e :: post) e Hg) as [c Hcon].
    { by eapply list_elem_of_lookup_2. }
    { apply elem_of_app. right. apply list_elem_of_here. }
    exists e, c. split_and!; [done..|].
    rewrite <- (chains_bucket _ _ _ Hc) in Hb. by eapply insert_found.
  - right. split; [done|]. by eapply insert_absent.
Qed.

(** [insert] always succeeds on a well-formed table and leaves a
    well-formed table. *)
Lemma well_formed_insert t nm num :
  well_formed t = true ->
  exists t', insert nm num t = Ok (tt, t') /\ well_formed t' = true.
Proof.
  intros Hwf.
  destruct (insert_cases t nm num Hwf)
    as (head & ch & Hd & Hb & [(e & c & Hf & Hc & Hi)|[Hf Hi]]).
  - eexists. split; [done|]. by apply well_formed_updated.
  - eexists. split; [done|]. eapply well_formed_prepended; [done..|].
    by apply find_key_None.
Qed.

Lemma concat_replicate_nil {A} n : concat (replicate n (@nil A)) = [].
Proof. induction n; simpl; done. Qed.

(** A new table is well formed. *)
Lemma well_formed_init sz t :
  HashTable_init sz = Ok t -> well_formed t = true.
Proof.
  unfold HashTable_init. case_bool_decide as Hs; [done|]. intros [= <-].
  set (c := default 10 sz) in *.
  apply (well_formed_intro _ (replicate (Z.to_nat c) [])).
  - unfold chains. apply mapM_Some. simpl.
    apply Forall2_replicate. done.
  - split_and!; simpl.
    + lia.
    + rewrite length_replicate. lia.
    + apply Forall2_replicate_r; [apply length_seqZ|].
      apply Forall_forall. intros i _. split; [constructor|]. simpl. constructor.
    + rewrite concat_replicate_nil. constructor.
Qed.

Lemma well_formed_inserts ops t :
  well_formed t = true ->
  exists t', inserts ops t = Ok (tt, t') /\ well_formed t' = true.
Proof.
  revert t. induction ops as [|[nm num] ops IH]; intros t Hwf; simpl.
  - by exists t.
  - destruct (well_formed_insert t nm num Hwf) as (t1 & H1 & Hwf1).
    destruct (IH t1 Hwf1) as (t2 & H2 & Hwf2).
    exists t2. split; [|done]. by rewrite (bind_Ok _ _ _ _ _ H1).
Qed.

(** Every table built by [HashTable(...)] and calls of [insert] is well
    formed, and none of these calls raises. *)
Lemma reachable_well_formed sz ops t0 :
  HashTable_init sz = Ok t0 ->
  exists t, inserts ops t0 = Ok (tt, t) /\ well_formed t = true.
Proof. intros Hi. eapply well_formed_inserts, well_formed_init, Hi. Qed.

(** ** Views of the buckets *)

Lemma Forall2_impl_in {A B} (P Q : A -> B -> Prop) l k :
  Forall2 P l k -> (forall x y, x ∈ l -> P x y -> Q x y) -> Forall2 Q l k.
Proof.
  induction 1 as [|x y l k Hxy Hlk IH]; intros HPQ; constructor.
  - apply HPQ; [apply list_elem_of_here|done].
  - apply IH. intros x' y' Hin. apply HPQ. by apply list_elem_of_further.
Qed.

Lemma NoDup_concat_chain {A B} (f : A -> B) (ls : list (list A)) i l :
  NoDup (f <$> concat ls) -> ls !! i = Some l -> NoDup (f <$> l).
Proof.
  revert i. induction ls as [|l0 ls IH]; intros i Hnd Hi; [done|].
  simpl in Hnd. rewrite fmap_app in Hnd. apply NoDup_app in Hnd as (H0 & _ & H1).
  destruct i as [|i]; simpl in Hi; [by injection Hi as <-|]. by eapply IH.
Qed.

Lemma NoDup_concat_apart {A B} (f : A -> B) (ls : list (list A)) i j l l' x y :
  NoDup (f <$> concat ls) -> ls !! i = Some l -> ls !! j = Some l' -> i <> j ->
  x ∈ l -> y ∈ l' -> f x <> f y.
Proof.
  revert i j. induction ls as [|l0 ls IH]; intros i j Hnd Hi Hj Hne Hx Hy; [done|].
  simpl in Hnd. rewrite fmap_app in Hnd. apply NoDup_app in Hnd as (H0 & H01 & H1).
  assert (forall k m z, ls !! k = Some m -> z ∈ m -> f z ∈ f <$> concat ls) as Hin.
  { intros k m z Hk Hz. apply list_elem_of_fmap_2, elem_of_concat.
    exists m. split; [by eapply list_elem_of_lookup_2|done]. }
  destruct i as [|i], j as [|j]; simpl in Hi, Hj; [done| | |].
  - injection Hi as <-. intros Heq. apply (H01 (f x)).
    + by apply list_elem_of_fmap_2.
    + rewrite Heq. by eapply Hin.
  - injection Hj as <-. intros Heq. apply (H01 (f y)).
    + by apply list_elem_of_fmap_2.
    + rewrite <- Heq. by eapply Hin.
  - eapply IH; eauto.
Qed.

Lemma NoDup_middle_apart {A B} (f : A -> B) (pre post : list A) e x :
  NoDup (f <$> pre ++ e :: post) -> x ∈ pre ++ post -> f x <> f e.
Proof.
  rewrite fmap_app, fmap_cons. intros (H0 & H01 & H1)%NoDup_app.
  apply NoDup_cons in H1 as [He _].
  intros [Hx|Hx]%elem_of_app Heq.
  - apply (H01 (f x)); [by apply list_elem_of_fmap_2|].
    rewrite Heq. apply list_elem_of_here.
  - apply He. rewrite <- Heq. by apply list_elem_of_fmap_2.
Qed.

Lemma entry_view_updated t l c num e :
  entry_view (updated t l c num) e =
    if decide (value e.2 = l) then Some (key e.2, mkContact (name c) num)
    else entry_view t e.
Proof.
  unfold entry_view. simpl. case_decide as H.
  - by rewrite H, lookup_insert_eq.
  - by rewrite lookup_insert_ne.
Qed.

Lemma entry_view_prepended t i head nm num e :
  is_Some (contacts t !! value e.2) ->
  entry_view (prepended t i head nm num) e = entry_view t e.
Proof.
  intros [c Hc]. unfold entry_view. simpl. rewrite lookup_insert_ne; [done|].
  intros Heq. rewrite <- Heq, fresh_contact in Hc. done.
Qed.

Lemma entry_view_key t e v : entry_view t e = Some v -> v.1 = key e.2.
Proof.
  unfold entry_view. destruct (contacts t !! value e.2); [|done].
  by intros [= <-].
Qed.

Lemma views_keys t ch vs :
  Forall2 (fun e v => entry_view t e = Some v) ch vs -> vs.*1 = keys ch.
Proof.
  induction 1 as [|e v ch vs H _ IH]; [done|].
  rewrite fmap_cons, IH, (entry_view_key _ _ _ H). done.
Qed.

(** Every bucket of a well-formed table has a view. *)
Lemma good_view t chs i ch :
  good t chs -> chs !! i = Some ch ->
  exists vs, Forall2 (fun e v => entry_view t e = Some v) ch vs.
Proof.
  intros Hg Hi. destruct (good_bucket _ _ _ _ Hg Hi) as [Hall _].
  assert (is_Some (mapM (entry_view t) ch)) as [vs Hvs].
  { apply mapM_is_Some. eapply Forall_impl; [exact Hall|].
    intros e [_ [c Hc]]. unfold compose, entry_view. rewrite Hc. by eexists. }
  exists vs. by apply mapM_Some.
Qed.

Lemma bucket_view_Some t chs i ch vs :
  chains t = Some chs -> chs !! i = Some ch ->
  Forall2 (fun e v => entry_view t e = Some v) ch vs ->
  bucket_view t i = Some vs.
Proof.
  intros Hc Hi Hv. unfold bucket_view.
  rewrite (chains_bucket _ _ _ Hc), Hi. simpl. by apply mapM_Some.
Qed.

Lemma view_updated_other t chs i j ch ch' e c num vs :
  good t chs -> chs !! i = Some ch -> e ∈ ch -> chs !! j = Some ch' -> j <> i ->
  Forall2 (fun e' v => entry_view t e' = Some v) ch' vs ->
  Forall2 (fun e' v => entry_view (updated t (value e.2) c num) e' = Some v) ch' vs.
Proof.
  intros (_ & _ & _ & Hnd) Hi He Hj Hne Hv.
  eapply Forall2_impl_in; [exact Hv|]. intros e' v He' Hev. simpl in Hev.
  rewrite entry_view_updated, decide_False; [done|].
  exact (NoDup_concat_apart (fun x => value x.2) chs j i ch' ch e' e
           Hnd Hj Hi Hne He' He).
Qed.

Lemma view_updated_target t chs i pre e post c num :
  good t chs -> chs !! i = Some (pre ++ e :: post) ->
  contacts t !! value e.2 = Some c ->
  exists vpre vpost,
    vpre.*1 = keys pre
    /\ Forall2 (fun e v => entry_view t e = Some v)
         (pre ++ e :: post) (vpre ++ (key e.2, c) :: vpost)
    /\ Forall2 (fun e' v => entry_view (updated t (value e.2) c num) e' = Some v)
         (pre ++ e :: post) (vpre ++ (key e.2, mkContact (name c) num) :: vpost).
Proof.
  intros Hg Hi Hc. destruct (good_view _ _ _ _ Hg Hi) as [vs Hv].
  pose proof Hv as Hv0.
  apply Forall2_app_inv_l in Hv as (vpre & vrest & Hpre & Hrest & ->).
  apply Forall2_cons_inv_l in Hrest as (v & vpost & Hev & Hpost & ->).
  assert (v = (key e.2, c)) as ->.
  { unfold entry_view in Hev. rewrite Hc in Hev. by injection Hev. }
  destruct Hg as (_ & _ & _ & Hnd).
  pose proof (NoDup_concat_chain (fun x => value x.2) _ _ _ Hnd Hi) as Hch.
  exists vpre, vpost. split_and!; [by eapply views_keys|done|].
  apply Forall2_app; [|constructor].
  - eapply Forall2_impl_in; [exact Hpre|]. intros e' v He' Hev'. simpl in Hev'.
    rewrite entry_view_updated, decide_False; [done|].
    eapply (NoDup_middle_apart (fun x => value x.2)); [exact Hch|].
    apply elem_of_app. by left.
  - rewrite entry_view_updated, decide_True; done.
  - eapply Forall2_impl_in; [exact Hpost|]. intros e' v He' Hev'. simpl in Hev'.
    rewrite entry_view_updated, decide_False; [done|].
    eapply (NoDup_middle_apart (fun x => value x.2)); [exact Hch|].
    apply elem_of_app. by right.
Qed.

Lemma view_prepended t chs i head nm num j ch vs :
  good t chs -> chs !! j = Some ch ->
  Forall2 (fun e v => entry_view t e = Some v) ch vs ->
  Forall2 (fun e v => entry_view (prepended t i head nm num) e = Some v) ch vs.
Proof.
  intros Hg Hj Hv. eapply Forall2_impl_in; [exact Hv|].
  intros e v He Hev. simpl in Hev. rewrite entry_view_prepended; [done|].
  eapply good_elem; [exact Hg| |exact He]. by eapply list_elem_of_lookup_2.
Qed.

(** The buckets beside the one at [i] read the same in a table [t'] with
    the same chains there and views that carry over. *)
Lemma bucket_view_frame t t' chs chs' j :
  chains t = Some chs -> chains t' = Some chs' -> good t chs ->
  chs' !! j = chs !! j ->
  (forall ch vs, chs !! j = Some ch ->
     Forall2 (fun e v => entry_view t e = Some v) ch vs ->
     Forall2 (fun e v => entry_view t' e = Some v) ch vs) ->
  bucket t' j = bucket t j /\ bucket_view t' j = bucket_view t j.
Proof.
  intros Hc Hc' Hg Heq Hv.
  assert (bucket t' j = bucket t j) as Hb.
  { by rewrite (chains_bucket _ _ _ Hc), (chains_bucket _ _ _ Hc'). }
  split; [done|]. unfold bucket_view. rewrite Hb, (chains_bucket _ _ _ Hc).
  destruct (chs !! j) as [ch|] eqn:Hj; [|done]. simpl.
  destruct (good_view _ _ _ _ Hg Hj) as [vs Hvs].
  pose proof (Hv _ _ eq_refl Hvs) as Hvs'.
  apply mapM_Some in Hvs, Hvs'. by rewrite Hvs, Hvs'.
Qed.

(** ** [search], [hash_function] and [print_table] only read *)

Lemma hash_function_pure k t v t' : hash_function k t = Ok (v, t') -> t' = t.
Proof.
  unfold hash_function, mbind, M_bind, get_size.
  case_bool_decide; [done|]. by intros [= _ <-].
Qed.

Lemma get_data_pure i t p t' : get_data i t = Ok (p, t') -> t' = t.
Proof.
  unfold get_data. destruct (py_index _ _); [|done].
  destruct (data t !! _); [|done]. by intros [= _ <-].
Qed.

Lemma get_node_pure l t n t' : get_node l t = Ok (n, t') -> t' = t.
Proof. unfold get_node. destruct (nodes t !! l); [|done]. by intros [= _ <-]. Qed.

Lemma get_contact_pure l t c t' : get_contact l t = Ok (c, t') -> t' = t.
Proof. unfold get_contact. destruct (contacts t !! l); [|done]. by intros [= _ <-]. Qed.

Lemma search_loop_pure f p nm t r t' :
  search_loop f p nm t = Ok (r, t') -> t' = t.
Proof.
  revert p. induction f as [|f IH]; intros [l|]; simpl; try done;
    try (by intros [= _ <-]).
  intros (n & t1 & H1 & H2)%bind_inv. apply get_node_pure in H1 as ->.
  destruct (py_eq (key n) nm); [by injection H2 as _ <-|by eapply IH].
Qed.

Lemma search_pure nm t r t' : search nm t = Ok (r, t') -> t' = t.
Proof.
  unfold search.
  intros (idx & t1 & ->%hash_function_pure & H)%bind_inv.
  apply bind_inv in H as (head & t2 & ->%get_data_pure & H).
  apply bind_inv in H as (fuel & t3 & [= _ <-] & H).
  by eapply search_loop_pure.
Qed.

Lemma parts_loop_pure f p acc t r t' :
  parts_loop f p acc t = Ok (r, t') -> t' = t.
Proof.
  revert p acc. induction f as [|f IH]; intros [l|] acc; simpl; try done;
    try (by intros [= _ <-]).
  intros (n & t1 & ->%get_node_pure & H)%bind_inv.
  apply bind_inv in H as (c & t2 & ->%get_contact_pure & H).
  by eapply IH.
Qed.

Lemma print_line_pure i t r t' : print_line i t = Ok (r, t') -> t' = t.
Proof.
  unfold print_line. intros (node & t1 & ->%get_data_pure & H)%bind_inv.
  destruct node; [|by injection H as _ <-].
  apply bind_inv in H as (fuel & t2 & [= _ <-] & H).
  apply bind_inv in H as (parts & t3 & ->%parts_loop_pure & H).
  by injection H as _ <-.
Qed.

Lemma for_each_pure range out t r t' :
  for_each range out t = Ok (r, t') -> t' = t.
Proof.
  revert out. induction range as [|i range IH]; intros out; simpl.
  - by intros [= _ <-].
  - intros (line & t1 & ->%print_line_pure & H)%bind_inv. by eapply IH.
Qed.

Lemma print_table_pure t r t' : print_table t = Ok (r, t') -> t' = t.
Proof.
  unfold print_table. intros (sz & t1 & [= _ <-] & H)%bind_inv.
  by eapply for_each_pure.
Qed.

Lemma for_each_spec t range out lines :
  Forall2 (fun i line => print_line i t = Ok (line, t)) range lines ->
  for_each range out t = Ok (out ++ lines, t).
Proof.
  intros H. revert out. induction H as [|i line range lines Hi _ IH]; intros out; simpl.
  - by rewrite app_nil_r.
  - rewrite (bind_Ok _ _ _ _ _ Hi), IH. by rewrite <- app_assoc.
Qed.

Lemma print_line_spec t i p ch vs :
  data t !! i = Some p ->
  walk (S (base.size (nodes t))) (nodes t) p = Some ch ->
  Forall2 (fun e v => entry_view t e = Some v) ch vs ->
  print_line (Z.of_nat i) t = Ok (dump_line (Z.of_nat i) vs, t).
Proof.
  intros Hd Hw Hv. unfold print_line.
  rewrite (bind_Ok _ _ _ _ _ (get_data_Ok _ _ _ Hd)).
  destruct p as [l|].
  - rewrite (bind_Ok _ _ t (S (base.size (nodes t))) t) by done.
    apply walk_bounded in Hw as [Hch Hlen].
    rewrite (bind_Ok _ _ _ _ _ (parts_loop_spec _ _ _ _ [] _ Hch Hlen Hv)).
    inversion Hch; subst.
    apply Forall2_cons_inv_l in Hv as (v & vs' & _ & _ & ->). done.
  - simpl in Hw. injection Hw as <-. apply Forall2_nil_inv_l in Hv as ->. done.
Qed.

Lemma print_table_spec t :
  well_formed t = true -> print_table t = Ok (dump t, t).
Proof.
  intros (chs & Hc & Hg)%well_formed_inv. pose proof Hg as (Hs & Hl & _).
  unfold print_table. rewrite (bind_Ok _ _ t (size t) t) by done.
  rewrite (for_each_spec t _ [] (dump t)); [done|].
  unfold dump. apply Forall2_fmap_r, Forall_Forall2_diag, Forall_forall.
  intros i [Hi0 Hi1]%elem_of_seqZ.
  destruct (lookup_lt_is_Some_2 (data t) (Z.to_nat i)) as [p Hp]; [lia|].
  destruct (chains_lookup _ _ _ _ Hc Hp) as (ch & Hch & Hw).
  destruct (good_view _ _ _ _ Hg Hch) as [vs Hv].
  unfold compose. rewrite (bucket_view_Some _ _ _ _ _ Hc Hch Hv). simpl.
  rewrite <- (Z2Nat.id i) at 1 2 by lia. by eapply print_line_spec.
Qed.

(** ** Buckets after [insert] *)

Lemma bucket_index_prepended t i head nm num k :
  bucket_index (prepended t i head nm num) k = bucket_index t k.
Proof. reflexivity. Qed.

Lemma bucket_prepended_same t head ch nm num :
  well_formed t = true -> data t !! bucket_index t nm = Some head ->
  bucket t (bucket_index t nm) = Some ch ->
  bucket (prepended t (bucket_index t nm) head nm num) (bucket_index t nm)
  = Some ((fresh (dom (nodes t)), mkNode nm (fresh (dom (contacts t))) head) :: ch).
Proof.
  intros (chs & Hc & Hg)%well_formed_inv Hd Hb.
  rewrite (chains_bucket _ _ _ Hc) in Hb.
  rewrite (chains_bucket _ _ _ (chains_prepended _ _ _ _ _ nm num Hc Hd Hb)).
  apply list_lookup_insert_eq. by eapply lookup_lt_Some.
Qed.

Lemma bucket_prepended_other t head ch nm num j :
  well_formed t = true -> data t !! bucket_index t nm = Some head ->
  bucket t (bucket_index t nm) = Some ch -> j <> bucket_index t nm ->
  bucket (prepended t (bucket_index t nm) head nm num) j = bucket t j.
Proof.
  intros (chs & Hc & Hg)%well_formed_inv Hd Hb Hne.
  rewrite (chains_bucket _ _ _ Hc) in Hb.
  rewrite (chains_bucket _ _ _ (chains_prepended _ _ _ _ _ nm num Hc Hd Hb)).
  rewrite (chains_bucket _ _ _ Hc). by apply list_lookup_insert_ne.
Qed.

(** ** [search] after [insert] *)

(** Looking up the name just inserted finds a Contact holding the number:
    as it was given when an existing entry was updated, as a string when
    the entry is new. *)
Lemma search_after_insert t nm num :
  well_formed t = true ->
  exists t' l c,
    insert nm num t = Ok (tt, t')
    /\ search nm t' = Ok (Some l, t')
    /\ contacts t' !! l = Some c
    /\ (number c = num \/ number c = PStr (py_str num)).
Proof.
  intros Hwf. pose proof (well_formed_inv _ Hwf) as (chs & _ & Hs & _).
  destruct (insert_cases t nm num Hwf)
    as (head & ch & Hd & Hb & [(e & c & Hf & Hc & Hi)|[Hf Hi]]).
  - exists (updated t (value e.2) c num), (value e.2), (mkContact (name c) num).
    split_and!; [done| | |by left].
    + rewrite (search_spec _ nm ch); [by rewrite Hf|done|done].
    + simpl. apply lookup_insert_eq.
  - eexists _, (fresh (dom (contacts t))),
      (mkContact (PStr (py_str nm)) (PStr (py_str num))).
    split_and!; [done| | |by right].
    + erewrite search_spec; [|done|].
      2:{ rewrite bucket_index_prepended. by apply bucket_prepended_same. }
      rewrite find_key_cons. simpl. by rewrite py_eq_refl.
    + simpl. apply lookup_insert_eq.
Qed.

(** Inserting another name does not change what [search] returns. *)
Lemma search_insert_other t t' k num nm r :
  well_formed t = true -> k <> nm ->
  insert k num t = Ok (tt, t') ->
  search nm t = Ok (r, t) -> search nm t' = Ok (r, t').
Proof.
  intros Hwf Hne Hi Hsr.
  pose proof (well_formed_inv _ Hwf) as (chs & _ & Hs & _).
  destruct (well_formed_bucket t nm Hwf) as [chn Hbn].
  rewrite (search_spec _ _ _ Hs Hbn) in Hsr. injection Hsr as <-.
  destruct (insert_cases t k num Hwf)
    as (head & ch & Hd & Hb & [(e & c & Hf & Hc & Hi')|[Hf Hi']]);
    rewrite Hi' in Hi; injection Hi as <-.
  - by apply search_spec.
  - destruct (decide (bucket_index t nm = bucket_index t k)) as [Heq|Hneq].
    + rewrite Heq in Hbn. rewrite Hb in Hbn. injection Hbn as <-.
      erewrite search_spec; [|done|].
      2:{ rewrite bucket_index_prepended, Heq. by apply bucket_prepended_same. }
      rewrite find_key_cons. simpl.
      by rewrite (proj2 (py_eq_false _ _) Hne).
    + apply search_spec; [done|].
      rewrite bucket_index_prepended, <- Hbn. by eapply bucket_prepended_other.
Qed.

(** A name that was never inserted is not found. *)
Lemma search_never_inserted ops t nm :
  well_formed t = true -> search nm t = Ok (None, t) -> nm ∉ ops.*1 ->
  exists t', inserts ops t = Ok (tt, t') /\ search nm t' = Ok (None, t').
Proof.
  revert t. induction ops as [|[k num] ops IH]; intros t Hwf Hs Hnot; simpl.
  - by exists t.
  - rewrite fmap_cons in Hnot. apply not_elem_of_cons in Hnot as [Hk Hnot].
    destruct (well_formed_insert t k num Hwf) as (t1 & H1 & Hwf1).
    destruct (IH t1 Hwf1) as (t2 & H2 & Hs2); [|done|].
    { simpl in Hk. by apply (search_insert_other t t1 k num nm None). }
    exists t2. split; [|done]. by rewrite (bind_Ok _ _ _ _ _ H1).
Qed.

Lemma search_init sz t nm :
  HashTable_init sz = Ok t -> search nm t = Ok (None, t).
Proof.
  intros Hi. pose proof (well_formed_init _ _ Hi) as Hwf.
  pose proof (well_formed_inv _ Hwf) as (chs & _ & Hs & _).
  destruct (well_formed_bucket t nm Hwf) as [ch Hb].
  rewrite (search_spec _ _ _ Hs Hb).
  apply bucket_Some in Hb as (p & Hd & Hw).
  unfold HashTable_init in Hi. case_bool_decide; [done|]. injection Hi as <-.
  simpl in Hd. apply lookup_replicate in Hd as [-> _].
  simpl in Hw. by injection Hw as <-.
Qed.

(** ** Counting the entries of a key *)

Lemma filter_none {A} (P : A -> Prop) `{!forall x, Decision (P x)} (l : list A) :
  (forall x, x ∈ l -> ~ P x) -> filter P l = [].
Proof.
  induction l as [|x l IH]; intros Hn; [done|].
  rewrite filter_cons_False by (apply Hn, list_elem_of_here).
  apply IH. intros y Hy. apply Hn. by apply list_elem_of_further.
Qed.

Lemma filter_concat_one {A} (P : A -> Prop) `{!forall x, Decision (P x)}
    (ls : list (list A)) i l :
  ls !! i = Some l ->
  (forall j l' x, ls !! j = Some l' -> j <> i -> x ∈ l' -> ~ P x) ->
  filter P (concat ls) = filter P l.
Proof.
  revert i. induction ls as [|l0 ls IH]; intros i Hi Hn; [done|].
  simpl. rewrite filter_app. destruct i as [|i]; simpl in Hi.
  - injection Hi as <-. rewrite (filter_none P (concat ls)), app_nil_r; [done|].
    intros x (l' & (j & Hj)%list_elem_of_lookup & Hx)%elem_of_concat.
    by apply (Hn (S j) l' x).
  - rewrite (filter_none P l0); [|intros x Hx; by apply (Hn 0%nat l0 x)].
    simpl. apply (IH i Hi). intros j l' x Hj Hne. apply (Hn (S j) l' x Hj). lia.
Qed.

Lemma count_chain nm ch :
  NoDup (keys ch) ->
  length (filter (fun e => py_eq (key e.2) nm = true) ch)
  = match find_key nm ch with Some _ => 1%nat | None => 0%nat end.
Proof.
  induction ch as [|x ch IH]; intros Hnd; [done|].
  simpl in Hnd. apply NoDup_cons in Hnd as [Hx Hnd].
  rewrite find_key_cons. destruct (py_eq (key x.2) nm) eqn:E.
  - rewrite filter_cons_True by done. rewrite filter_none; [done|].
    intros y Hy Hk. apply Hx. apply py_eq_true in E, Hk. rewrite E, <- Hk.
    by apply (list_elem_of_fmap_2 (fun e => key e.2)).
  - rewrite filter_cons_False by congruence. by apply IH.
Qed.

(** In a well-formed table, the entries of a key are in the bucket that
    [search] reads, and there is at most one. *)
Lemma count_key_spec t nm ch :
  well_formed t = true -> bucket t (bucket_index t nm) = Some ch ->
  count_key t nm = Some (match find_key nm ch with Some _ => 1%nat | None => 0%nat end).
Proof.
  intros (chs & Hc & Hg)%well_formed_inv Hb.
  rewrite (chains_bucket _ _ _ Hc) in Hb.
  unfold count_key. rewrite Hc. simpl. f_equal.
  rewrite (filter_concat_one _ chs _ ch Hb).
  - apply count_chain. by destruct (good_bucket _ _ _ _ Hg Hb).
  - intros j l' x Hj Hne Hx Hk. apply py_eq_true in Hk.
    destruct (good_bucket _ _ _ _ Hg Hj) as [Hall _].
    rewrite Forall_forall in Hall. destruct (Hall x Hx) as [Hh _].
    destruct Hg as (Hs & _). apply Hne.
    rewrite Hk, <- bucket_index_spec in Hh by done. lia.
Qed.

Lemma count_key_search t nm :
  well_formed t = true ->
  (search nm t = Ok (None, t) <-> count_key t nm = Some 0%nat)
  /\ ((exists l, search nm t = Ok (Some l, t)) <-> count_key t nm = Some 1%nat).
Proof.
  intros Hwf. pose proof (well_formed_inv _ Hwf) as (chs & _ & Hs & _).
  destruct (well_formed_bucket t nm Hwf) as [ch Hb].
  rewrite (search_spec _ _ _ Hs Hb), (count_key_spec _ _ _ Hwf Hb).
  destruct (find_key nm ch) as [e|]; simpl; split; split; try done; eauto.
  intros [l [=]].
Qed.

(** * The claims *)

(** ** Hash function *)

Lemma sum_ord_char_code_sum s : sum_ord s = char_code_sum s.
Proof.
  induction s as [|c s IH]; [done|]. by rewrite sum_ord_cons, IH.
Qed.

(** C4. On a table of capacity [size t > 0], [hash_function k] returns
    the sum of the character codes of [str(k)] modulo the capacity; the
    result lies in [0, size t); the call leaves the table as it was, so a
    second call with the same key returns the same index. *)
Theorem hash_function_contract (t : HashTable) (k : pyval) :
  0 < size t ->
  exists h,
    hash_function k t = Ok (h, t)
    /\ h = char_code_sum (py_str k) mod size t
    /\ 0 <= h < size t
    /\ (h1 ← hash_function k; h2 ← hash_function k; mret (h1, h2)) t
       = Ok ((h, h), t).
Proof.
  intros Hs. exists (sum_ord (py_str k) mod size t).
  assert (hash_function k t = Ok (sum_ord (py_str k) mod size t, t)) as Hh
    by (apply hash_function_Ok; lia).
  split; [done|]. split; [by rewrite sum_ord_char_code_sum|].
  split; [by apply hash_range|].
  rewrite (bind_Ok _ _ _ _ _ Hh). by rewrite (bind_Ok _ _ _ _ _ Hh).
Qed.

Lemma hash_function_contract_witness :
  exists h,
    hash_function (PStr "Amy") (mkTable ∅ ∅ 10 (replicate 10 None))
      = Ok (h, mkTable ∅ ∅ 10 (replicate 10 None))
    /\ h = char_code_sum "Amy" mod 10
    /\ 0 <= h < 10
    /\ (h1 ← hash_function (PStr "Amy"); h2 ← hash_function (PStr "Amy"); mret (h1, h2))
         (mkTable ∅ ∅ 10 (replicate 10 None))
       = Ok ((h, h), mkTable ∅ ∅ 10 (replicate 10 None)).
Proof.
  apply (hash_function_contract (mkTable ∅ ∅ 10 (replicate 10 None)) (PStr "Amy")).
  simpl. lia.
Defined.

(** ** Construction *)

(** C6. [HashTable(size)] raises ValueError when [size <= 0], in
    particular for 0 and -1, and then returns no table; for [size > 0] it
    returns a table of that capacity with [size] empty buckets and an empty
    store; without an argument the capacity is 10. *)
Theorem construction_guard (c : Z) :
  (c <= 0 ->
     HashTable_init (Some c) = Raise ValueError
     /\ forall t, HashTable_init (Some c) <> Ok t)
  /\ HashTable_init (Some 0) = Raise ValueError
  /\ HashTable_init (Some (-1)) = Raise ValueError
  /\ (0 < c ->
      HashTable_init (Some c) = Ok (mkTable ∅ ∅ c (replicate (Z.to_nat c) None)))
  /\ HashTable_init None = HashTable_init (Some 10)
  /\ HashTable_init None = Ok (mkTable ∅ ∅ 10 (replicate 10 None)).
Proof.
  split_and!; try done.
  - intros Hc. unfold HashTable_init. simpl.
    rewrite bool_decide_eq_true_2 by done. done.
  - intros Hc. unfold HashTable_init. simpl.
    by rewrite bool_decide_eq_false_2 by lia.
Qed.

Lemma construction_guard_witness :
  HashTable_init (Some (-7)) = Raise ValueError
  /\ HashTable_init (Some 3) = Ok (mkTable ∅ ∅ 3 [None; None; None]).
Proof.
  split.
  - apply (proj1 (construction_guard (-7))). lia.
  - apply (proj1 (proj2 (proj2 (proj2 (construction_guard 3))))). lia.
Defined.

(** ** Search *)

Lemma find_key_middle nm pre e post :
  key e.2 = nm -> nm ∉ keys pre -> find_key nm (pre ++ e :: post) = Some e.
Proof.
  intros He. induction pre as [|x pre IH]; intros Hpre; simpl.
  - rewrite find_key_cons. by rewrite (proj2 (py_eq_true _ _) He).
  - simpl in Hpre. apply not_elem_of_cons in Hpre as [Hx Hpre].
    rewrite find_key_cons.
    rewrite (proj2 (py_eq_false (key x.2) nm)) by congruence. by apply IH.
Qed.

(** C5. On a well-formed table, [search(name)] reads the chain of bucket
    [hash_function(name)] only, from its head, and returns the Contact of
    the first entry whose key equals [name]; when no entry of the chain has
    that key it returns None; no other part of the table matters; it
    raises nothing and leaves the table as it was.  On a table built by [HashTable(...)] and calls of [insert], a name
    that was never inserted is answered with None. *)
Theorem search_semantics (t : HashTable) (nm : pyval) :
  well_formed t = true ->
  exists ch,
    bucket t (bucket_index t nm) = Some ch
    /\ search nm t = Ok ((fun e => value e.2) <$> find_key nm ch, t)
    /\ (forall pre e post,
          ch = pre ++ e :: post -> key e.2 = nm -> nm ∉ keys pre ->
          search nm t = Ok (Some (value e.2), t))
    /\ (nm ∉ keys ch -> search nm t = Ok (None, t))
    /\ (forall t2,
          size t2 = size t -> bucket t2 (bucket_index t nm) = Some ch ->
          search nm t2 = Ok ((fun e => value e.2) <$> find_key nm ch, t2))
    /\ (forall r t', search nm t = Ok (r, t') -> t' = t)
    /\ (forall sz ops t0 t',
          HashTable_init sz = Ok t0 -> inserts ops t0 = Ok (tt, t') ->
          nm ∉ ops.*1 -> search nm t' = Ok (None, t')).
Proof.
  intros Hwf. pose proof (well_formed_inv _ Hwf) as (chs & _ & Hs & _).
  destruct (well_formed_bucket t nm Hwf) as [ch Hb].
  pose proof (search_spec _ _ _ Hs Hb) as Hsearch.
  exists ch. split_and!; [done|done| | | | |].
  - intros pre e post -> He Hpre. by rewrite Hsearch, find_key_middle.
  - intros Hk. by rewrite Hsearch, (proj2 (find_key_None _ _) Hk).
  - intros t2 Hs2 Hb2. apply search_spec; [lia|].
    unfold bucket_index. by rewrite Hs2.
  - intros r t'. apply search_pure.
  - intros sz ops t0 t' Hi Hops Hnot.
    destruct (search_never_inserted ops t0 nm) as (t1 & H1 & H2);
      [by eapply well_formed_init|by eapply search_init|done|].
    rewrite H1 in Hops. by injection Hops as <-.
Qed.

Lemma search_semantics_witness :
  well_formed demo = true
  /\ search (PStr "Chris") demo = Ok (None, demo)
  /\ search (PStr "John") demo = Ok (Some 1%positive, demo).
Proof.
  split; [reflexivity|].
  destruct (search_semantics demo (PStr "Chris") eq_refl)
    as (ch & Hb & Hs & _ & _ & _ & _ & Hnever).
  split.
  - apply (Hnever (Some 10)
             [(PStr "John", PStr "909-876-1234");
              (PStr "Rebecca", PStr "111-555-0002")] empty10);
      [reflexivity|reflexivity|].
    apply (bool_decide_unpack _). vm_compute. exact I.
  - destruct (search_semantics demo (PStr "John") eq_refl)
      as (ch' & Hb' & Hs' & _).
    rewrite Hs'. vm_compute in Hb'. injection Hb' as <-. reflexivity.
Defined.

(** ** Dump *)

Lemma well_formed_bucket_view t i :
  well_formed t = true -> (i < length (data t))%nat ->
  exists vs, bucket_view t i = Some vs.
Proof.
  intros (chs & Hc & Hg)%well_formed_inv Hi.
  destruct (lookup_lt_is_Some_2 (data t) i Hi) as [p Hp].
  destruct (chains_lookup _ _ _ _ Hc Hp) as (ch & Hch & _).
  destruct (good_view _ _ _ _ Hg Hch) as [vs Hv].
  exists vs. by eapply bucket_view_Some.
Qed.

Lemma bucket_view_init sz t i :
  HashTable_init sz = Ok t -> (i < length (data t))%nat ->
  bucket_view t i = Some [].
Proof.
  unfold HashTable_init. case_bool_decide; [done|]. intros [= <-] Hi.
  simpl in Hi. rewrite length_replicate in Hi.
  unfold bucket_view, bucket. simpl. by rewrite lookup_replicate_2.
Qed.

(** C7. On a well-formed table of capacity [size t], [print_table] prints
    [size t] lines, the line at position [i] being the one of bucket [i]:
    [Index i: Empty] for an empty chain, otherwise [Index i: ] followed by
    the entries [- name: number] of the chain, head first, separated by one
    space; it leaves the table as it was; a new table prints only Empty
    lines. *)
Theorem dump_format (t : HashTable) :
  well_formed t = true ->
  exists lines,
    print_table t = Ok (lines, t)
    /\ length lines = Z.to_nat (size t)
    /\ (forall i : nat, (i < length lines)%nat ->
          exists vs, bucket_view t i = Some vs
                     /\ lines !! i = Some (dump_line (Z.of_nat i) vs))
    /\ (forall i, dump_line i [] = "Index " +:+ pretty i +:+ ": Empty")
    /\ (forall i v vs,
          dump_line i (v :: vs)
          = "Index " +:+ pretty i +:+ ": " +:+ join " " (render <$> v :: vs))
    /\ (forall k c,
          render (k, c) = "- " +:+ py_str (name c) +:+ ": " +:+ py_str (number c))
    /\ (forall r t', print_table t = Ok (r, t') -> t' = t)
    /\ (forall sz t0,
          HashTable_init sz = Ok t0 ->
          print_table t0
          = Ok ((fun i => "Index " +:+ pretty i +:+ ": Empty") <$> seqZ 0 (size t0), t0)).
Proof.
  intros Hwf. pose proof (well_formed_inv _ Hwf) as (chs & _ & Hs & Hl & _).
  exists (dump t).
  assert (length (dump t) = Z.to_nat (size t)) as Hlen.
  { unfold dump. by rewrite length_fmap, length_seqZ. }
  split_and!; try done.
  - by apply print_table_spec.
  - intros i Hi. rewrite Hlen in Hi.
    destruct (well_formed_bucket_view t i Hwf) as [vs Hvs]; [lia|].
    exists vs. split; [done|]. unfold dump.
    rewrite list_lookup_fmap, lookup_seqZ_lt by lia. simpl.
    by rewrite Z.add_0_l, Nat2Z.id, Hvs.
  - intros r t'. apply print_table_pure.
  - intros sz t0 Hi. pose proof (well_formed_init _ _ Hi) as Hwf0.
    pose proof (well_formed_inv _ Hwf0) as (chs0 & _ & Hs0 & Hl0 & _).
    rewrite (print_table_spec _ Hwf0). do 2 f_equal. unfold dump.
    apply list_fmap_ext. intros j i [-> Hj]%lookup_seqZ.
    rewrite Z.add_0_l, Nat2Z.id.
    rewrite (bucket_view_init sz t0) by (done || lia). done.
Qed.

Lemma dump_format_witness :
  well_formed demo = true
  /\ exists lines,
       print_table demo = Ok (lines, demo)
       /\ length lines = 10%nat
       /\ lines !! 8%nat = Some "Index 8: Empty"
       /\ lines !! 9%nat = Some "Index 9: - John: 909-876-1234".
Proof.
  split; [reflexivity|].
  destruct (dump_format demo eq_refl) as (lines & Hp & Hlen & Hline & _).
  exists lines. split_and!; [done|done| |].
  - destruct (Hline 8%nat) as (vs & Hv & Hl); [rewrite Hlen; vm_compute; lia|].
    vm_compute in Hv. injection Hv as <-. exact Hl.
  - destruct (Hline 9%nat) as (vs & Hv & Hl); [rewrite Hlen; vm_compute; lia|].
    vm_compute in Hv. injection Hv as <-. exact Hl.
Defined.

(** ** Frame *)

(** The effect of [insert] on the views of the buckets. *)
Lemma insert_effect (t : HashTable) (nm num : pyval) :
  well_formed t = true ->
  exists t' old,
    insert nm num t = Ok (tt, t')
    /\ size t' = size t
    /\ length (data t') = length (data t)
    /\ (forall j, j <> bucket_index t nm ->
          data t' !! j = data t !! j
          /\ bucket t' j = bucket t j
          /\ bucket_view t' j = bucket_view t j)
    /\ bucket_view t (bucket_index t nm) = Some old
    /\ ((exists pre c post,
           old = pre ++ (nm, c) :: post
           /\ (nm ∉ pre.*1)
           /\ bucket_view t' (bucket_index t nm)
              = Some (pre ++ (nm, mkContact (name c) num) :: post)
           /\ nodes t' = nodes t
           /\ data t' = data t)
        \/ ((nm ∉ old.*1)
            /\ bucket_view t' (bucket_index t nm)
               = Some ((nm, mkContact (PStr (py_str nm)) (PStr (py_str num))) :: old))).
Proof.
  intros Hwf. pose proof (well_formed_inv _ Hwf) as (chs & Hc & Hg).
  destruct (insert_cases t nm num Hwf)
    as (head & ch & Hd & Hb & [(e & c & Hf & Hcon & Hi)|[Hf Hi]]).
  - (* an existing entry is updated *)
    rewrite (chains_bucket _ _ _ Hc) in Hb.
    destruct (find_key_Some _ _ _ Hf) as (pre & post & -> & Hk & Hpre).
    destruct (view_updated_target _ _ _ _ _ _ _ num Hg Hb Hcon)
      as (vpre & vpost & Hkeys & Hv & Hv').
    rewrite Hk in Hv, Hv'.
    exists (updated t (value e.2) c num), (vpre ++ (nm, c) :: vpost).
    split_and!; [done|done|done| | |].
    + intros j Hj. split; [done|].
      apply (bucket_view_frame t _ chs chs); [done..|].
      intros ch' vs Hch'. eapply view_updated_other; [done|exact Hb| |done|done].
      apply elem_of_app. right. apply list_elem_of_here.
    + by eapply bucket_view_Some.
    + left. exists vpre, c, vpost. split_and!; [done| |by eapply bucket_view_Some|done..].
      by rewrite Hkeys.
  - (* a new entry is put in front *)
    rewrite (chains_bucket _ _ _ Hc) in Hb.
    destruct (good_view _ _ _ _ Hg Hb) as [old Hold].
    pose proof (chains_prepended _ _ _ _ _ nm num Hc Hd Hb) as Hc'.
    exists (prepended t (bucket_index t nm) head nm num), old.
    split_and!; [done|done|apply length_insert| | |].
    + intros j Hj. split; [by apply list_lookup_insert_ne|].
      eapply bucket_view_frame; [done|exact Hc'|done| |].
      * by apply list_lookup_insert_ne.
      * intros ch' vs Hch'. by eapply view_prepended.
    + by eapply bucket_view_Some.
    + right. split.
      * rewrite (views_keys _ _ _ Hold). by apply find_key_None.
      * eapply bucket_view_Some; [exact Hc'| |].
        { apply list_lookup_insert_eq. by eapply lookup_lt_Some. }
        constructor; [|by eapply view_prepended].
        unfold entry_view. simpl. by rewrite lookup_insert_eq.
Qed.

(** C9. On a well-formed table, [insert(name, number)] succeeds and keeps
    [size] and the length of [data]; every bucket other than the one of
    [name] keeps its head, its chain and its view; in the bucket of [name],
    either the first entry with that key has the number of its Contact
    replaced and all else (entries, order, nodes, heads) is as before, or no
    entry had that key and one new entry stands in front of the old chain.
    [search], [print_table] and [hash_function] do not change [size]
    either. *)
Theorem insert_frame (t : HashTable) (nm num : pyval) :
  well_formed t = true ->
  exists t' old,
    insert nm num t = Ok (tt, t')
    /\ size t' = size t
    /\ length (data t') = length (data t)
    /\ (forall j, j <> bucket_index t nm ->
          data t' !! j = data t !! j
          /\ bucket t' j = bucket t j
          /\ bucket_view t' j = bucket_view t j)
    /\ bucket_view t (bucket_index t nm) = Some old
    /\ ((exists pre c post,
           old = pre ++ (nm, c) :: post
           /\ (nm ∉ pre.*1)
           /\ bucket_view t' (bucket_index t nm)
              = Some (pre ++ (nm, mkContact (name c) num) :: post)
           /\ nodes t' = nodes t
           /\ data t' = data t)
        \/ ((nm ∉ old.*1)
            /\ bucket_view t' (bucket_index t nm)
               = Some ((nm, mkContact (PStr (py_str nm)) (PStr (py_str num))) :: old)))
    /\ (forall k r t1, search k t = Ok (r, t1) -> size t1 = size t)
    /\ (forall r t1, print_table t = Ok (r, t1) -> size t1 = size t)
    /\ (forall k r t1, hash_function k t = Ok (r, t1) -> size t1 = size t).
Proof.
  intros Hwf.
  destruct (insert_effect t nm num Hwf) as (t' & old & H1 & H2 & H3 & H4 & H5 & H6).
  exists t', old. split_and!; try done.
  - by intros k r t1 ->%search_pure.
  - by intros r t1 ->%print_table_pure.
  - by intros k r t1 ->%hash_function_pure.
Qed.

Lemma insert_frame_witness :
  well_formed demo = true
  /\ exists t',
       insert (PStr "Rebecca") (PStr "999-444-9999") demo = Ok (tt, t')
       /\ size t' = 10
       /\ bucket_view t' 9 = bucket_view demo 9.
Proof.
  split; [reflexivity|].
  destruct (insert_frame demo (PStr "Rebecca") (PStr "999-444-9999") eq_refl)
    as (t' & old & Hi & Hs & _ & Hother & _).
  exists t'. split_and!; [done|done|].
  apply (Hother 9%nat). vm_compute. lia.
Defined.

(** ** Idempotence *)

Lemma updated_twice t l c num :
  updated (updated t l c num) l (mkContact (name c) num) num = updated t l c num.
Proof. unfold updated. simpl. by rewrite insert_insert_eq. Qed.

(** X10. On a well-formed table, for a name of any kind and a number that
    is a string, a second [insert(name, number)] right after the first one
    changes nothing: the table after two calls is the table after one call,
    so its buckets and chains, its dump and the result of every [search]
    are the same. *)
Theorem insert_idempotent (t : HashTable) (nm : pyval) (num : string) :
  well_formed t = true ->
  exists t1,
    insert nm (PStr num) t = Ok (tt, t1)
    /\ insert nm (PStr num) t1 = Ok (tt, t1)
    /\ (insert nm (PStr num);; insert nm (PStr num)) t = insert nm (PStr num) t
    /\ (insert nm (PStr num);; insert nm (PStr num);; print_table) t
       = (insert nm (PStr num);; print_table) t
    /\ (forall k, (insert nm (PStr num);; insert nm (PStr num);; search k) t
                  = (insert nm (PStr num);; search k) t).
Proof.
  intros Hwf. pose proof (well_formed_inv _ Hwf) as (chs & _ & Hs & _).
  assert (exists t1, insert nm (PStr num) t = Ok (tt, t1)
                     /\ insert nm (PStr num) t1 = Ok (tt, t1)) as (t1 & H1 & H2).
  { destruct (insert_cases t nm (PStr num) Hwf)
      as (head & ch & Hd & Hb & [(e & c & Hf & Hcon & Hi)|[Hf Hi]]).
    - eexists. split; [exact Hi|].
      rewrite <- (updated_twice t (value e.2) c (PStr num)) at 2.
      apply (insert_found _ _ _ ch e); [done|done|done|].
      simpl. apply lookup_insert_eq.
    - eexists. split; [exact Hi|].
      set (t1 := prepended t (bucket_index t nm) head nm (PStr num)).
      set (e := (fresh (dom (nodes t)), mkNode nm (fresh (dom (contacts t))) head)).
      set (c := mkContact (PStr (py_str nm)) (PStr num)).
      assert (updated t1 (value e.2) c (PStr num) = t1) as Heq.
      { unfold updated, t1, prepended. simpl. by rewrite insert_insert_eq. }
      rewrite <- Heq at 2.
      apply (insert_found t1 nm (PStr num) (e :: ch) e c).
      + done.
      + unfold t1, e. rewrite bucket_index_prepended.
        by apply bucket_prepended_same.
      + rewrite find_key_cons. simpl. by rewrite py_eq_refl.
      + simpl. apply lookup_insert_eq. }
  exists t1. split_and!; [done|done|..].
  - by rewrite (bind_Ok _ _ _ _ _ H1), H1.
  - rewrite !(bind_Ok _ _ _ _ _ H1). by rewrite (bind_Ok _ _ _ _ _ H2).
  - intros k. rewrite !(bind_Ok _ _ _ _ _ H1). by rewrite (bind_Ok _ _ _ _ _ H2).
Qed.

Lemma insert_idempotent_witness :
  well_formed demo = true
  /\ exists t1,
       insert (PStr "Amy") (PStr "111-222-3333") demo = Ok (tt, t1)
       /\ insert (PStr "Amy") (PStr "111-222-3333") t1 = Ok (tt, t1).
Proof.
  split; [reflexivity|].
  destruct (insert_idempotent demo (PStr "Amy") "111-222-3333" eq_refl)
    as (t1 & H1 & H2 & _).
  exists t1. split; [exact H1|exact H2].
Defined.

(** C8 fails on the code.  The new-entry path of [insert] stores
    [str(number)] through [Contact(name, number)], the update path assigns
    [number] as it was given.  So on a new table of capacity 10,
    [insert("Amy", 5)] leaves the Contact of "Amy" with the number "5", and
    the same call once more leaves it with the integer 5: the table after
    two calls differs from the table after one, and what [search("Amy")]
    returns holds another number, although [print_table] prints the same
    lines. *)
Theorem idempotence_broken :
  exists t1 t2 l lines,
    HashTable_init (Some 10) = Ok empty10
    /\ insert (PStr "Amy") (PInt 5) empty10 = Ok (tt, t1)
    /\ insert (PStr "Amy") (PInt 5) t1 = Ok (tt, t2)
    /\ search (PStr "Amy") t1 = Ok (Some l, t1)
    /\ search (PStr "Amy") t2 = Ok (Some l, t2)
    /\ contacts t1 !! l = Some (mkContact (PStr "Amy") (PStr "5"))
    /\ contacts t2 !! l = Some (mkContact (PStr "Amy") (PInt 5))
    /\ lookup_contact t1 (PStr "Amy") <> lookup_contact t2 (PStr "Amy")
    /\ t2 <> t1
    /\ print_table t1 = Ok (lines, t1)
    /\ print_table t2 = Ok (lines, t2).
Proof.
  eexists _, _, _, _.
  split; [reflexivity|].
  split; [vm_compute; reflexivity|].
  split; [vm_compute; reflexivity|].
  split; [vm_compute; reflexivity|].
  split; [vm_compute; reflexivity|].
  split; [vm_compute; reflexivity|].
  split; [vm_compute; reflexivity|].
  split; [vm_compute; discriminate|].
  split.
  - intros H. apply (f_equal (fun t => contacts t !! 1%positive)) in H.
    vm_compute in H. discriminate.
  - split; vm_compute; reflexivity.
Qed.

(** ** Update *)

Lemma insert_existing t nm num l :
  well_formed t = true -> search nm t = Ok (Some l, t) ->
  exists c t',
    contacts t !! l = Some c
    /\ insert nm num t = Ok (tt, t')
    /\ well_formed t' = true
    /\ contacts t' = <[l := mkContact (name c) num]> (contacts t)
    /\ nodes t' = nodes t
    /\ data t' = data t
    /\ size t' = size t
    /\ search nm t' = Ok (Some l, t')
    /\ count_key t' nm = Some 1%nat.
Proof.
  intros Hwf Hsr. pose proof (well_formed_inv _ Hwf) as (chs & _ & Hs & _).
  destruct (insert_cases t nm num Hwf)
    as (head & ch & Hd & Hb & [(e & c & Hf & Hcon & Hi)|[Hf Hi]]);
    rewrite (search_spec _ _ _ Hs Hb), Hf in Hsr; [|done].
  injection Hsr as <-.
  pose proof (well_formed_updated t (value e.2) c num Hwf Hcon) as Hwf'.
  exists c, (updated t (value e.2) c num).
  split_and!; try done.
  - rewrite (search_spec _ nm ch); [by rewrite Hf|done|done].
  - rewrite (count_key_spec _ nm ch); [by rewrite Hf|done|done].
Qed.

(** C2. On a well-formed table, [insert(name, number)] for a name that
    [search] finds assigns [number] to the [number] attribute of the Contact
    found, at the same address, and allocates nothing: nodes and buckets are
    as before.  After [insert("Rebecca", "111-555-0002")] and
    [insert("Rebecca", "999-444-9999")], [search("Rebecca")] returns the
    Contact that it returned between the two calls, now with the number
    "999-444-9999", and the table has exactly one entry with the key
    "Rebecca". *)
Theorem update_law (t : HashTable) :
  well_formed t = true ->
  (forall nm num l,
     search nm t = Ok (Some l, t) ->
     exists c t',
       contacts t !! l = Some c
       /\ insert nm num t = Ok (tt, t')
       /\ contacts t' = <[l := mkContact (name c) num]> (contacts t)
       /\ nodes t' = nodes t
       /\ data t' = data t
       /\ size t' = size t
       /\ search nm t' = Ok (Some l, t')
       /\ count_key t' nm = Some 1%nat)
  /\ exists t1 t2 l c,
       insert (PStr "Rebecca") (PStr "111-555-0002") t = Ok (tt, t1)
       /\ insert (PStr "Rebecca") (PStr "999-444-9999") t1 = Ok (tt, t2)
       /\ search (PStr "Rebecca") t1 = Ok (Some l, t1)
       /\ search (PStr "Rebecca") t2 = Ok (Some l, t2)
       /\ contacts t2 !! l = Some c
       /\ number c = PStr "999-444-9999"
       /\ nodes t2 = nodes t1
       /\ data t2 = data t1
       /\ count_key t2 (PStr "Rebecca") = Some 1%nat.
Proof.
  intros Hwf. split.
  - intros nm num l Hsr.
    destruct (insert_existing t nm num l Hwf Hsr)
      as (c & t' & ? & ? & ? & ? & ? & ? & ? & ? & ?).
    exists c, t'. by split_and!.
  - destruct (search_after_insert t (PStr "Rebecca") (PStr "111-555-0002") Hwf)
      as (t1 & l & c1 & H1 & Hs1 & _).
    destruct (well_formed_insert t (PStr "Rebecca") (PStr "111-555-0002") Hwf)
      as (t1' & H1' & Hwf1).
    rewrite H1 in H1'. injection H1' as <-.
    destruct (insert_existing t1 (PStr "Rebecca") (PStr "999-444-9999") l Hwf1 Hs1)
      as (c & t2 & Hc & H2 & _ & Hcon & Hn & Hd & _ & Hs2 & Hcount).
    exists t1, t2, l, (mkContact (name c) (PStr "999-444-9999")).
    split_and!; try done.
    rewrite Hcon. apply lookup_insert_eq.
Qed.

Lemma update_law_witness :
  well_formed demo = true
  /\ exists c t',
       contacts demo !! 2%positive = Some c
       /\ insert (PStr "Rebecca") (PStr "999-444-9999") demo = Ok (tt, t')
       /\ contacts t' = <[2%positive := mkContact (name c) (PStr "999-444-9999")]> (contacts demo)
       /\ nodes t' = nodes demo
       /\ count_key t' (PStr "Rebecca") = Some 1%nat.
Proof.
  split; [reflexivity|].
  destruct (proj1 (update_law demo eq_refl)
              (PStr "Rebecca") (PStr "999-444-9999") 2%positive eq_refl)
    as (c & t' & ? & ? & ? & ? & ? & ? & ? & ?).
  exists c, t'. by split_and!.
Defined.

(** ** Collisions *)

Lemma insert_new_head t nm num :
  well_formed t = true -> count_key t nm = Some 0%nat ->
  exists t' head ch ln lc,
    data t !! bucket_index t nm = Some head
    /\ bucket t (bucket_index t nm) = Some ch
    /\ insert nm num t = Ok (tt, t')
    /\ nodes t !! ln = None
    /\ contacts t !! lc = None
    /\ data t' !! bucket_index t nm = Some (Some ln)
    /\ nodes t' !! ln = Some (mkNode nm lc head)
    /\ contacts t' !! lc = Some (mkContact (PStr (py_str nm)) (PStr (py_str num)))
    /\ bucket t' (bucket_index t nm) = Some ((ln, mkNode nm lc head) :: ch).
Proof.
  intros Hwf Hcount.
  pose proof (well_formed_inv _ Hwf) as (chs & _ & Hs & Hl & _).
  destruct (insert_cases t nm num Hwf)
    as (head & ch & Hd & Hb & [(e & c & Hf & Hcon & Hi)|[Hf Hi]]);
    rewrite (count_key_spec _ _ _ Hwf Hb), Hf in Hcount; [done|].
  exists (prepended t (bucket_index t nm) head nm num), head, ch,
    (fresh (dom (nodes t))), (fresh (dom (contacts t))).
  split_and!; [done|done|done|apply fresh_node|apply fresh_contact|..].
  - simpl. apply list_lookup_insert_eq. by eapply lookup_lt_Some.
  - simpl. apply lookup_insert_eq.
  - simpl. apply lookup_insert_eq.
  - by apply bucket_prepended_same.
Qed.

(** C1. In a table of capacity 10, "Amy" and "May" both have the
    character-code sum 295 and the bucket 5; after [insert("Amy", n1)] and
    [insert("May", n2)] the chain of bucket 5 is the node of "May" followed
    by the node of "Amy", and line 5 of the dump shows May before Amy.  In
    general, on a well-formed table without an entry for [name],
    [insert(name, number)] allocates a Node that becomes the head of the
    bucket of [name] and whose [next] is the previous head. *)
Theorem head_insertion_collision :
  (forall n1 n2 : pyval,
     exists t1 t2 amy may ca cm lines,
       HashTable_init (Some 10) = Ok empty10
       /\ sum_ord "Amy" = 295 /\ sum_ord "May" = 295
       /\ bucket_index empty10 (PStr "Amy") = 5%nat
       /\ bucket_index empty10 (PStr "May") = 5%nat
       /\ insert (PStr "Amy") n1 empty10 = Ok (tt, t1)
       /\ insert (PStr "May") n2 t1 = Ok (tt, t2)
       /\ data t2 !! 5%nat = Some (Some may)
       /\ bucket t2 5 = Some [(may, mkNode (PStr "May") cm (Some amy));
                              (amy, mkNode (PStr "Amy") ca None)]
       /\ bucket_view t2 5
          = Some [(PStr "May", mkContact (PStr "May") (PStr (py_str n2)));
                  (PStr "Amy", mkContact (PStr "Amy") (PStr (py_str n1)))]
       /\ print_table t2 = Ok (lines, t2)
       /\ lines !! 5%nat
          = Some ("Index 5: - May: " +:+ py_str n2 +:+ " - Amy: " +:+ py_str n1))
  /\ (forall t nm num,
        well_formed t = true -> count_key t nm = Some 0%nat ->
        exists t' head ch ln lc,
          data t !! bucket_index t nm = Some head
          /\ bucket t (bucket_index t nm) = Some ch
          /\ insert nm num t = Ok (tt, t')
          /\ nodes t !! ln = None
          /\ data t' !! bucket_index t nm = Some (Some ln)
          /\ nodes t' !! ln = Some (mkNode nm lc head)
          /\ contacts t' !! lc = Some (mkContact (PStr (py_str nm)) (PStr (py_str num)))
          /\ bucket t' (bucket_index t nm) = Some ((ln, mkNode nm lc head) :: ch)).
Proof.
  split.
  - intros n1 n2.
    eexists _, _, _, _, _, _, _.
    split_and!; [reflexivity..| | | | | | |].
    + vm_compute. reflexivity.
    + vm_compute. reflexivity.
    + vm_compute. reflexivity.
    + vm_compute. reflexivity.
    + vm_compute. reflexivity.
    + vm_compute. reflexivity.
    + vm_compute. reflexivity.
  - intros t nm num Hwf Hcount.
    destruct (insert_new_head t nm num Hwf Hcount)
      as (t' & head & ch & ln & lc & ? & ? & ? & ? & ? & ? & ? & ? & ?).
    exists t', head, ch, ln, lc. by split_and!.
Qed.

Lemma head_insertion_collision_witness :
  well_formed demo = true
  /\ count_key demo (PStr "Amy") = Some 0%nat
  /\ exists t' ln,
       insert (PStr "Amy") (PStr "111-222-3333") demo = Ok (tt, t')
       /\ nodes demo !! ln = None
       /\ data t' !! 5%nat = Some (Some ln).
Proof.
  split; [reflexivity|]. split; [reflexivity|].
  destruct (proj2 head_insertion_collision demo (PStr "Amy") (PStr "111-222-3333")
              eq_refl eq_refl)
    as (t' & head & ch & ln & lc & _ & _ & Hi & Hn & Hd & _).
  assert (bucket_index demo (PStr "Amy") = 5%nat) as E by (vm_compute; reflexivity).
  rewrite E in Hd.
  exists t', ln. split; [exact Hi|]. split; [exact Hn|exact Hd].
Defined.

(** ** The empty string as a key *)

Lemma bucket_index_empty t : bucket_index t (PStr "") = 0%nat.
Proof. unfold bucket_index. simpl. by rewrite sum_ord_empty, Zmod_0_l. Qed.

(** C10. The character-code sum of the empty string is 0, so it hashes
    to bucket 0 whatever the capacity; after [insert("", number)] on a new
    table, bucket 0 holds that one entry and [search("")] returns its
    Contact, whose number is [number]; on a well-formed table
    [hash_function], [insert] and [search] raise nothing for an empty name
    or an empty number. *)
Theorem empty_string_key :
  sum_ord "" = 0
  /\ (forall t, 0 < size t -> hash_function (PStr "") t = Ok (0, t))
  /\ (forall sz t0 (num : string),
        HashTable_init sz = Ok t0 ->
        exists t1 l c,
          insert (PStr "") (PStr num) t0 = Ok (tt, t1)
          /\ bucket_view t1 0 = Some [(PStr "", mkContact (PStr "") (PStr num))]
          /\ search (PStr "") t1 = Ok (Some l, t1)
          /\ contacts t1 !! l = Some c
          /\ number c = PStr num)
  /\ (forall t nm num,
        well_formed t = true ->
        (exists t', insert (PStr "") num t = Ok (tt, t'))
        /\ (exists t', insert nm (PStr "") t = Ok (tt, t'))
        /\ (exists r, search (PStr "") t = Ok (r, t))
        /\ hash_function (PStr "") t = Ok (0, t)).
Proof.
  assert (forall t, 0 < size t -> hash_function (PStr "") t = Ok (0, t)) as Hh.
  { intros t Hs. rewrite hash_function_Ok by lia. simpl.
    by rewrite sum_ord_empty, Z.mod_0_l by lia. }
  split_and!; [done|done| |].
  - intros sz t0 num Hi. pose proof (well_formed_init _ _ Hi) as Hwf.
    pose proof (well_formed_inv _ Hwf) as (chs & _ & Hs & Hl & _).
    destruct (search_after_insert t0 (PStr "") (PStr num) Hwf)
      as (t1 & l & c & H1 & Hsr & Hc & Hnum).
    destruct (insert_effect t0 (PStr "") (PStr num) Hwf)
      as (t1' & old & H1' & _ & _ & _ & Hold & Hcase).
    rewrite H1 in H1'. injection H1' as <-.
    rewrite bucket_index_empty in Hold, Hcase.
    rewrite (bucket_view_init sz t0) in Hold by (done || lia).
    injection Hold as <-.
    exists t1, l, c. split_and!; [done| |done|done|by destruct Hnum].
    destruct Hcase as [(pre & c' & post & Hnil & _)|[_ Hv]]; [|done].
    by destruct pre.
  - intros t nm num Hwf.
    pose proof (well_formed_inv _ Hwf) as (chs & _ & Hs & _).
    split_and!.
    + destruct (well_formed_insert t (PStr "") num Hwf) as (t' & ? & _). eauto.
    + destruct (well_formed_insert t nm (PStr "") Hwf) as (t' & ? & _). eauto.
    + destruct (well_formed_bucket t (PStr "") Hwf) as [ch Hb].
      eexists. by apply search_spec.
    + by apply Hh.
Qed.

Lemma empty_string_key_witness :
  0 < size demo
  /\ hash_function (PStr "") demo = Ok (0, demo)
  /\ HashTable_init (Some 10) = Ok empty10
  /\ exists t1 l c,
       insert (PStr "") (PStr "") empty10 = Ok (tt, t1)
       /\ search (PStr "") t1 = Ok (Some l, t1)
       /\ contacts t1 !! l = Some c
       /\ number c = PStr "".
Proof.
  split; [vm_compute; reflexivity|].
  split; [apply (proj1 (proj2 empty_string_key) demo); vm_compute; reflexivity|].
  split; [reflexivity|].
  destruct (proj1 (proj2 (proj2 empty_string_key)) (Some 10) empty10 "" eq_refl)
    as (t1 & l & c & ? & _ & ? & ? & ?).
  by exists t1, l, c.
Defined.

(** ** Values that are not strings *)

(** C3 fails on the code.  [hash_function] and [Contact] pass their
    arguments through [str], but [insert] stores the key and compares it
    as it was given, [search] compares the name as it was given, and the
    update path of [insert] assigns the number as it was given.  So after
    [insert(123, 456)] on a new table of capacity 10, [search("123")] returns
    None while [search(123)] finds the Contact ["123": "456"]; and after a
    further [insert(123, 789)] that Contact holds the integer 789. *)
Theorem coercion_mismatch :
  exists t1 t2 l,
    HashTable_init (Some 10) = Ok empty10
    /\ insert (PInt 123) (PInt 456) empty10 = Ok (tt, t1)
    /\ bucket_index t1 (PInt 123) = bucket_index t1 (PStr "123")
    /\ search (PStr "123") t1 = Ok (None, t1)
    /\ search (PInt 123) t1 = Ok (Some l, t1)
    /\ contacts t1 !! l = Some (mkContact (PStr "123") (PStr "456"))
    /\ insert (PInt 123) (PInt 789) t1 = Ok (tt, t2)
    /\ search (PInt 123) t2 = Ok (Some l, t2)
    /\ contacts t2 !! l = Some (mkContact (PStr "123") (PInt 789)).
Proof.
  eexists _, _, _. split_and!; vm_compute; reflexivity.
Qed.

(** * Further properties *)

(** ** The table as a map *)

Lemma find_key_view t ch vs k :
  Forall2 (fun e v => entry_view t e = Some v) ch vs ->
  (e ← find_key k ch; contacts t !! value e.2) = view_find k vs.
Proof.
  induction 1 as [|e [k' c] ch vs He _ IH]; [done|].
  rewrite find_key_cons. simpl.
  unfold entry_view in He. destruct (contacts t !! value e.2) as [c'|] eqn:Ec; [|done].
  injection He as <- <-. destruct (py_eq (key e.2) k); [done|]. exact IH.
Qed.

Lemma lookup_contact_view t k vs :
  well_formed t = true -> bucket_view t (bucket_index t k) = Some vs ->
  lookup_contact t k = view_find k vs.
Proof.
  intros Hwf Hv. pose proof (well_formed_inv _ Hwf) as (chs & _ & Hs & _).
  destruct (well_formed_bucket t k Hwf) as [ch Hb].
  unfold lookup_contact. rewrite (search_spec _ _ _ Hs Hb).
  unfold bucket_view in Hv. rewrite Hb in Hv. simpl in Hv.
  apply mapM_Some in Hv. rewrite <- (find_key_view t ch vs k Hv).
  by destruct (find_key k ch).
Qed.

Lemma view_update_found nm num pre c post :
  nm ∉ pre.*1 ->
  view_update nm num (pre ++ (nm, c) :: post)
  = Some (pre ++ (nm, mkContact (name c) num) :: post).
Proof.
  induction pre as [|[k c'] pre IH]; intros Hpre; simpl.
  - by rewrite py_eq_refl.
  - rewrite fmap_cons in Hpre. apply not_elem_of_cons in Hpre as [Hk Hpre].
    simpl in Hk. rewrite (proj2 (py_eq_false k nm)) by congruence.
    by rewrite IH.
Qed.

Lemma view_update_absent nm num vs : nm ∉ vs.*1 -> view_update nm num vs = None.
Proof.
  induction vs as [|[k c] vs IH]; intros Hvs; simpl; [done|].
  rewrite fmap_cons in Hvs. apply not_elem_of_cons in Hvs as [Hk Hvs].
  simpl in Hk. rewrite (proj2 (py_eq_false k nm)) by congruence.
  by rewrite IH.
Qed.

Lemma view_find_update nm num k vs vs' :
  view_update nm num vs = Some vs' ->
  exists c, view_find nm vs = Some c
            /\ view_find k vs'
               = if decide (nm = k) then Some (mkContact (name c) num)
                 else view_find k vs.
Proof.
  revert vs'. induction vs as [|[k' c'] vs IH]; intros vs' H; simpl in *; [done|].
  destruct (py_eq k' nm) eqn:E.
  - injection H as <-. apply py_eq_true in E as ->. exists c'. split; [done|].
    simpl. case_decide as Hk.
    + subst k. by rewrite py_eq_refl.
    + by rewrite (proj2 (py_eq_false nm k)).
  - destruct (view_update nm num vs) as [r|]; [|done]. injection H as <-.
    destruct (IH r eq_refl) as (c & Hc & Hr). exists c. split; [done|].
    simpl. apply py_eq_false in E. case_decide as Hk.
    + subst k. by rewrite (proj2 (py_eq_false k' nm)).
    + by rewrite Hr.
Qed.

Lemma view_find_update_None nm num vs :
  view_update nm num vs = None -> view_find nm vs = None.
Proof.
  induction vs as [|[k' c'] vs IH]; simpl; [done|].
  destruct (py_eq k' nm); [done|].
  destruct (view_update nm num vs); [done|]. auto.
Qed.

(** [search] on the bucket after [insert], in terms of the pairs. *)
Lemma view_find_insert nm num k vs :
  view_find k (view_insert nm num vs)
  = if decide (nm = k) then Some (contact_after (view_find nm vs) nm num)
    else view_find k vs.
Proof.
  unfold view_insert. destruct (view_update nm num vs) as [vs'|] eqn:E; simpl.
  - destruct (view_find_update nm num k vs vs' E) as (c & Hc & ->).
    by rewrite Hc.
  - rewrite (view_find_update_None _ _ _ E). case_decide as Hk.
    + subst k. by rewrite py_eq_refl.
    + by rewrite (proj2 (py_eq_false nm k)).
Qed.

Lemma bucket_index_size t t' k : size t' = size t -> bucket_index t' k = bucket_index t k.
Proof. intros H. unfold bucket_index. by rewrite H. Qed.

(** [insert] acts on the pairs of one bucket as [view_insert]. *)
Lemma insert_view t nm num :
  well_formed t = true ->
  exists t' old,
    insert nm num t = Ok (tt, t')
    /\ well_formed t' = true
    /\ size t' = size t
    /\ bucket_view t (bucket_index t nm) = Some old
    /\ bucket_view t' (bucket_index t nm) = Some (view_insert nm num old)
    /\ (forall j, j <> bucket_index t nm -> bucket_view t' j = bucket_view t j).
Proof.
  intros Hwf.
  destruct (insert_effect t nm num Hwf)
    as (t' & old & Hi & Hs & _ & Hother & Hold & Hcase).
  destruct (well_formed_insert t nm num Hwf) as (t1 & Hi1 & Hwf').
  rewrite Hi in Hi1. injection Hi1 as <-.
  exists t', old. split_and!; [done..| |].
  - destruct Hcase as [(pre & c & post & -> & Hpre & Hv & _)|[Habs Hv]];
      rewrite Hv; f_equal; unfold view_insert.
    + by rewrite view_update_found.
    + by rewrite view_update_absent.
  - intros j Hj. by destruct (Hother j Hj) as (_ & _ & ?).
Qed.

Lemma lookup_insert_step t nm num :
  well_formed t = true ->
  exists t',
    insert nm num t = Ok (tt, t')
    /\ well_formed t' = true
    /\ size t' = size t
    /\ forall k,
         lookup_contact t' k
         = if decide (nm = k) then Some (contact_after (lookup_contact t nm) nm num)
           else lookup_contact t k.
Proof.
  intros Hwf.
  destruct (insert_view t nm num Hwf) as (t' & old & Hi & Hwf' & Hs & Hold & Hnew & Hother).
  exists t'. split_and!; [done..|]. intros k.
  rewrite (lookup_contact_view t nm old Hwf Hold).
  destruct (decide (bucket_index t k = bucket_index t nm)) as [Heq|Hne].
  - rewrite (lookup_contact_view t' k (view_insert nm num old) Hwf').
    2:{ by rewrite (bucket_index_size t t' k Hs), Heq. }
    rewrite view_find_insert. case_decide; [done|].
    symmetry. apply lookup_contact_view; [done|]. by rewrite Heq.
  - rewrite decide_False by (intros ->; done).
    pose proof (well_formed_inv _ Hwf) as (chs & _ & Hpos & Hl & _).
    destruct (well_formed_bucket_view t (bucket_index t k) Hwf) as [vs Hvs].
    { by apply bucket_index_lt. }
    rewrite (lookup_contact_view t k vs Hwf Hvs).
    apply lookup_contact_view; [done|].
    by rewrite (bucket_index_size t t' k Hs), (Hother _ Hne).
Qed.

Lemma lookup_contact_init sz t k : HashTable_init sz = Ok t -> lookup_contact t k = None.
Proof. intros H. unfold lookup_contact. by rewrite (search_init sz t k H). Qed.

Lemma inserts_lookup ops t :
  well_formed t = true ->
  exists t',
    inserts ops t = Ok (tt, t')
    /\ well_formed t' = true
    /\ forall k, lookup_contact t' k = model ops k (lookup_contact t k).
Proof.
  revert t. induction ops as [|[nm num] ops IH]; intros t Hwf; simpl.
  - by exists t.
  - destruct (lookup_insert_step t nm num Hwf) as (t1 & H1 & Hwf1 & _ & Hl1).
    destruct (IH t1 Hwf1) as (t2 & H2 & Hwf2 & Hl2).
    exists t2. split_and!; [by rewrite (bind_Ok _ _ _ _ _ H1)|done|].
    intros k. rewrite Hl2, Hl1. by case_decide; subst.
Qed.

(** A reference returned by [search] on a well-formed table is live. *)
Lemma search_found_contact t k l :
  well_formed t = true -> search k t = Ok (Some l, t) -> is_Some (contacts t !! l).
Proof.
  intros Hwf Hs. pose proof (well_formed_inv _ Hwf) as (chs & Hc & Hg).
  pose proof Hg as (Hpos & _).
  destruct (well_formed_bucket t k Hwf) as [ch Hb].
  rewrite (search_spec _ _ _ Hpos Hb) in Hs.
  destruct (find_key k ch) as [e|] eqn:Hf; [|done]. injection Hs as <-.
  destruct (find_key_Some _ _ _ Hf) as (pre & post & -> & _ & _).
  rewrite (chains_bucket _ _ _ Hc) in Hb.
  eapply (good_elem t chs); [done|by eapply list_elem_of_lookup_2|].
  apply elem_of_app. right. apply list_elem_of_here.
Qed.

Lemma lookup_contact_is_Some t k :
  well_formed t = true ->
  is_Some (lookup_contact t k) <-> exists l, search k t = Ok (Some l, t).
Proof.
  intros Hwf. pose proof (well_formed_inv _ Hwf) as (chs & _ & Hpos & _).
  destruct (well_formed_bucket t k Hwf) as [ch Hb].
  pose proof (search_spec _ _ _ Hpos Hb) as Hs.
  unfold lookup_contact. split.
  - rewrite Hs. destruct (find_key k ch); simpl; [eauto|by intros [? ?]].
  - intros [l Hl]. rewrite Hl. by eapply search_found_contact.
Qed.

Lemma model_is_Some ops k cur :
  is_Some (model ops k cur) <-> is_Some cur \/ k ∈ ops.*1.
Proof.
  revert cur. induction ops as [|[nm num] ops IH]; intros cur.
  - simpl. split; [by left|]. intros [?|?%elem_of_nil]; done.
  - rewrite fmap_cons, elem_of_cons. simpl. rewrite IH. case_decide as Hk.
    + subst. split; [intros _; right; by left|intros _; left; by eexists].
    + split; [intros [?|?]; auto|]. intros [?|[?|?]]; auto. congruence.
Qed.

(** X1. On a well-formed table, after [insert(name, number)] a [search]
    for [name] finds a Contact: the one found before with [number] assigned
    as it was given, or, when none was found before, a Contact holding
    [str(name)] and [str(number)]; for every other name [search] finds
    what it found before, with the same attributes. *)
Theorem lookup_after_insert (t : HashTable) (nm num : pyval) :
  well_formed t = true ->
  exists t',
    insert nm num t = Ok (tt, t')
    /\ (forall c, lookup_contact t nm = Some c ->
                  lookup_contact t' nm = Some (mkContact (name c) num))
    /\ (lookup_contact t nm = None ->
        lookup_contact t' nm = Some (mkContact (PStr (py_str nm)) (PStr (py_str num))))
    /\ (forall k, k <> nm -> lookup_contact t' k = lookup_contact t k).
Proof.
  intros Hwf. destruct (lookup_insert_step t nm num Hwf) as (t' & Hi & _ & _ & Hl).
  exists t'. split_and!; [done|..].
  - intros c Hc. by rewrite Hl, decide_True, Hc.
  - intros Hc. by rewrite Hl, decide_True, Hc.
  - intros k Hk. by rewrite Hl, decide_False.
Qed.

Lemma lookup_after_insert_witness :
  well_formed demo = true
  /\ exists t',
       insert (PStr "John") (PInt 5) demo = Ok (tt, t')
       /\ lookup_contact t' (PStr "John") = Some (mkContact (PStr "John") (PInt 5))
       /\ lookup_contact t' (PStr "Rebecca") = lookup_contact demo (PStr "Rebecca").
Proof.
  split; [reflexivity|].
  destruct (lookup_after_insert demo (PStr "John") (PInt 5) eq_refl)
    as (t' & Hi & Hold & _ & Hother).
  exists t'. split_and!; [done| |].
  - apply (Hold (mkContact (PStr "John") (PStr "909-876-1234"))). reflexivity.
  - by apply Hother.
Defined.

(** X2. For a table built by [HashTable(...)] and the inserts [ops],
    what [search(k)] finds is what the inserts of [k] in [ops] leave, read
    in order: the first one builds [Contact(k, number)], each later one
    assigns its number as given; a name that is not in [ops] is not
    found. *)
Theorem reachable_lookup_model (sz : option Z) (ops : list (pyval * pyval))
    (t0 t : HashTable) (k : pyval) :
  HashTable_init sz = Ok t0 ->
  inserts ops t0 = Ok (tt, t) ->
  lookup_contact t k = model ops k None.
Proof.
  intros Hi Hops. pose proof (well_formed_init _ _ Hi) as Hwf.
  destruct (inserts_lookup ops t0 Hwf) as (t' & Hops' & _ & Hl).
  rewrite Hops in Hops'. injection Hops' as <-.
  by rewrite Hl, (lookup_contact_init sz t0 k Hi).
Qed.

Lemma reachable_lookup_model_witness :
  HashTable_init (Some 10) = Ok empty10
  /\ inserts [(PStr "John", PStr "909-876-1234");
              (PStr "Rebecca", PStr "111-555-0002")] empty10 = Ok (tt, demo)
  /\ lookup_contact demo (PStr "Rebecca")
     = Some (mkContact (PStr "Rebecca") (PStr "111-555-0002")).
Proof.
  split; [reflexivity|]. split; [reflexivity|].
  apply (reachable_lookup_model (Some 10)
           [(PStr "John", PStr "909-876-1234");
            (PStr "Rebecca", PStr "111-555-0002")] empty10 demo (PStr "Rebecca"));
    reflexivity.
Defined.

(** X3. In a table built by [HashTable(...)] and the inserts [ops],
    [search(k)] finds a Contact exactly when [k] is one of the names
    inserted, and the table then holds exactly one entry with the key [k],
    none otherwise: repeated inserts of a name never add a second entry. *)
Theorem reachable_membership (sz : option Z) (ops : list (pyval * pyval))
    (t0 t : HashTable) (k : pyval) :
  HashTable_init sz = Ok t0 ->
  inserts ops t0 = Ok (tt, t) ->
  (k ∈ ops.*1 <-> exists l, search k t = Ok (Some l, t))
  /\ (k ∉ ops.*1 <-> search k t = Ok (None, t))
  /\ count_key t k = Some (if decide (k ∈ ops.*1) then 1%nat else 0%nat).
Proof.
  intros Hi Hops. pose proof (well_formed_init _ _ Hi) as Hwf0.
  destruct (inserts_lookup ops t0 Hwf0) as (t' & Hops' & Hwf & Hl).
  rewrite Hops in Hops'. injection Hops' as <-.
  assert (k ∈ ops.*1 <-> exists l, search k t = Ok (Some l, t)) as Hin.
  { rewrite <- (lookup_contact_is_Some t k Hwf), Hl, model_is_Some.
    rewrite (lookup_contact_init sz t0 k Hi).
    split; [by right|]. by intros [[? ?]|?]. }
  destruct (count_key_search t k Hwf) as [Hnone Hsome].
  pose proof (well_formed_inv _ Hwf) as (chs & _ & Hpos & _).
  destruct (well_formed_bucket t k Hwf) as [ch Hb].
  pose proof (search_spec _ _ _ Hpos Hb) as Hs.
  assert (k ∉ ops.*1 <-> search k t = Ok (None, t)) as Hout.
  { rewrite Hin, Hs. destruct (find_key k ch); simpl; split; try done.
    - intros H. destruct H. eauto.
    - intros _ [l [=]]. }
  split_and!; [done|done|]. case_decide as Hk.
  - by apply Hsome, Hin.
  - by apply Hnone, Hout.
Qed.

Lemma reachable_membership_witness :
  HashTable_init (Some 10) = Ok empty10
  /\ inserts [(PStr "John", PStr "909-876-1234");
              (PStr "Rebecca", PStr "111-555-0002")] empty10 = Ok (tt, demo)
  /\ count_key demo (PStr "John") = Some 1%nat
  /\ count_key demo (PStr "Chris") = Some 0%nat.
Proof.
  split; [reflexivity|]. split; [reflexivity|]. split.
  - apply (reachable_membership (Some 10)
             [(PStr "John", PStr "909-876-1234");
              (PStr "Rebecca", PStr "111-555-0002")] empty10 demo (PStr "John"));
      reflexivity.
  - apply (reachable_membership (Some 10)
             [(PStr "John", PStr "909-876-1234");
              (PStr "Rebecca", PStr "111-555-0002")] empty10 demo (PStr "Chris"));
      reflexivity.
Defined.

(** ** What [insert] allocates *)

(** X4. On a well-formed table, [insert] never changes or removes a Node
    and never removes a Contact or changes a Contact's name.  When [search]
    finds the name it allocates nothing; when it does not, it allocates
    exactly one Node and one Contact. *)
Theorem insert_allocation (t : HashTable) (nm num : pyval) :
  well_formed t = true ->
  exists t',
    insert nm num t = Ok (tt, t')
    /\ nodes t ⊆ nodes t'
    /\ (forall l c, contacts t !! l = Some c ->
          exists c', contacts t' !! l = Some c' /\ name c' = name c)
    /\ (is_Some (lookup_contact t nm) ->
        nodes t' = nodes t /\ dom (contacts t') = dom (contacts t))
    /\ (lookup_contact t nm = None ->
        base.size (nodes t') = S (base.size (nodes t))
        /\ base.size (contacts t') = S (base.size (contacts t))).
Proof.
  intros Hwf. pose proof (well_formed_inv _ Hwf) as (chs & _ & Hpos & _).
  destruct (insert_cases t nm num Hwf)
    as (head & ch & Hd & Hb & [(e & c & Hf & Hcon & Hi)|[Hf Hi]]).
  - assert (lookup_contact t nm = Some c) as Hl.
    { unfold lookup_contact. by rewrite (search_spec _ _ _ Hpos Hb), Hf. }
    exists (updated t (value e.2) c num). split_and!; [done|done| | |].
    + intros l c0 Hc0. simpl. destruct (decide (l = value e.2)) as [->|Hne].
      * rewrite lookup_insert_eq. rewrite Hcon in Hc0. injection Hc0 as <-. eauto.
      * rewrite lookup_insert_ne by done. eauto.
    + intros _. split; [done|]. simpl. apply dom_insert_lookup_L. eauto.
    + by rewrite Hl.
  - assert (lookup_contact t nm = None) as Hl.
    { unfold lookup_contact. by rewrite (search_spec _ _ _ Hpos Hb), Hf. }
    exists (prepended t (bucket_index t nm) head nm num).
    split_and!; [done| | | |].
    + simpl. apply insert_subseteq, fresh_node.
    + intros l c0 Hc0. simpl. exists c0. split; [|done].
      rewrite lookup_insert_ne; [done|]. intros Heq.
      rewrite <- Heq, fresh_contact in Hc0. done.
    + rewrite Hl. by intros [? ?].
    + intros _. simpl. split.
      * apply map_size_insert_None, fresh_node.
      * apply map_size_insert_None, fresh_contact.
Qed.

Lemma insert_allocation_witness :
  well_formed demo = true
  /\ exists t',
       insert (PStr "Amy") (PStr "111-222-3333") demo = Ok (tt, t')
       /\ nodes demo ⊆ nodes t'
       /\ base.size (nodes t') = 3%nat.
Proof.
  split; [reflexivity|].
  destruct (insert_allocation demo (PStr "Amy") (PStr "111-222-3333") eq_refl)
    as (t' & Hi & Hsub & _ & _ & Hnew).
  exists t'. split_and!; [done|done|].
  by destruct (Hnew eq_refl) as [-> _].
Defined.

(** ** [insert] and the dump *)

Lemma dump_ext t t' :
  size t' = size t ->
  (forall j, bucket_view t' j = bucket_view t j) -> dump t' = dump t.
Proof.
  intros Hs Hv. unfold dump. rewrite Hs. apply list_fmap_ext.
  intros i j _. by rewrite Hv.
Qed.

(** X5. On a well-formed table, [insert(name, number)] acts on the
    entries of the bucket of [name] as on a list of pairs (the first pair
    with that key gets the number, otherwise a new pair comes first) and
    leaves the entries of the other buckets alone; so [print_table] after
    the insert prints the lines it printed before, except the line of that
    bucket. *)
Theorem insert_changes_one_line (t : HashTable) (nm num : pyval) :
  well_formed t = true ->
  exists t' old,
    insert nm num t = Ok (tt, t')
    /\ bucket_view t (bucket_index t nm) = Some old
    /\ bucket_view t' (bucket_index t nm) = Some (view_insert nm num old)
    /\ (forall j, j <> bucket_index t nm -> bucket_view t' j = bucket_view t j)
    /\ print_table t = Ok (dump t, t)
    /\ print_table t'
       = Ok (<[bucket_index t nm :=
                 dump_line (Z.of_nat (bucket_index t nm)) (view_insert nm num old)]>
               (dump t), t').
Proof.
  intros Hwf. pose proof (well_formed_inv _ Hwf) as (chs & _ & Hpos & Hlen & _).
  destruct (insert_view t nm num Hwf)
    as (t' & old & Hi & Hwf' & Hs & Hold & Hnew & Hother).
  exists t', old. split_and!; [done..|by apply print_table_spec|].
  rewrite (print_table_spec t' Hwf'). do 2 f_equal.
  pose proof (bucket_index_lt t nm Hpos Hlen) as Hlt.
  apply list_eq. intros j.
  destruct (decide (j = bucket_index t nm)) as [->|Hne].
  - rewrite list_lookup_insert_eq.
    2:{ unfold dump. rewrite length_fmap, length_seqZ. lia. }
    unfold dump. rewrite list_lookup_fmap, Hs, lookup_seqZ_lt by lia. simpl.
    by rewrite Z.add_0_l, Nat2Z.id, Hnew.
  - rewrite list_lookup_insert_ne by done.
    unfold dump. rewrite !list_lookup_fmap, Hs.
    destruct (seqZ 0 (size t) !! j) as [i|] eqn:Ej; [|done]. simpl.
    apply lookup_seqZ in Ej as [-> _].
    by rewrite Z.add_0_l, Nat2Z.id, (Hother j Hne).
Qed.

Lemma insert_changes_one_line_witness :
  well_formed demo = true
  /\ exists t' lines,
       insert (PStr "Amy") (PStr "111-222-3333") demo = Ok (tt, t')
       /\ print_table t' = Ok (lines, t')
       /\ lines !! 5%nat = Some "Index 5: - Amy: 111-222-3333"
       /\ lines !! 9%nat = Some "Index 9: - John: 909-876-1234".
Proof.
  split; [reflexivity|].
  destruct (insert_changes_one_line demo (PStr "Amy") (PStr "111-222-3333") eq_refl)
    as (t' & old & Hi & Hold & _ & _ & _ & Hp).
  vm_compute in Hold. injection Hold as <-.
  eexists t', _. split_and!; [done|exact Hp|reflexivity|reflexivity].
Defined.

(** ** Inserts of different names *)

Lemma insert_both t nm num :
  well_formed t = true ->
  exists t' old,
    insert nm num t = Ok (tt, t')
    /\ well_formed t' = true
    /\ size t' = size t
    /\ bucket_view t (bucket_index t nm) = Some old
    /\ bucket_view t' (bucket_index t nm) = Some (view_insert nm num old)
    /\ (forall j, j <> bucket_index t nm -> bucket_view t' j = bucket_view t j)
    /\ (forall k,
          lookup_contact t' k
          = if decide (nm = k) then Some (contact_after (lookup_contact t nm) nm num)
            else lookup_contact t k).
Proof.
  intros Hwf.
  destruct (insert_view t nm num Hwf) as (t' & old & Hi & ? & ? & ? & ? & ?).
  destruct (lookup_insert_step t nm num Hwf) as (t1 & Hi1 & _ & _ & Hl).
  rewrite Hi in Hi1. injection Hi1 as <-.
  exists t', old. by split_and!.
Qed.

(** X6. On a well-formed table, two inserts of different names can be
    swapped as far as [search] can tell: in either order every name is found
    with the same attributes.  When the two names fall into different
    buckets, the entries of every bucket are the same too, and [print_table]
    prints the same lines. *)
Theorem insert_commute (t : HashTable) (k1 n1 k2 n2 : pyval) :
  well_formed t = true -> k1 <> k2 ->
  exists ta tab tb tba,
    insert k1 n1 t = Ok (tt, ta) /\ insert k2 n2 ta = Ok (tt, tab)
    /\ insert k2 n2 t = Ok (tt, tb) /\ insert k1 n1 tb = Ok (tt, tba)
    /\ (forall k, lookup_contact tab k = lookup_contact tba k)
    /\ (bucket_index t k1 <> bucket_index t k2 ->
        (forall j, bucket_view tab j = bucket_view tba j)
        /\ exists lines,
             print_table tab = Ok (lines, tab) /\ print_table tba = Ok (lines, tba)).
Proof.
  intros Hwf Hne.
  destruct (insert_both t k1 n1 Hwf)
    as (ta & old1 & Ha & Hwfa & Hsa & Hold1 & Hnew1 & Hoth1 & Hla).
  destruct (insert_both ta k2 n2 Hwfa)
    as (tab & old2a & Hab & Hwfab & Hsab & Hold2a & Hnew2a & Hoth2a & Hlab).
  destruct (insert_both t k2 n2 Hwf)
    as (tb & old2 & Hb & Hwfb & Hsb & Hold2 & Hnew2 & Hoth2 & Hlb).
  destruct (insert_both tb k1 n1 Hwfb)
    as (tba & old1b & Hba & Hwfba & Hsba & Hold1b & Hnew1b & Hoth1b & Hlba).
  rewrite (bucket_index_size t ta k2 Hsa) in Hold2a, Hnew2a, Hoth2a.
  rewrite (bucket_index_size t tb k1 Hsb) in Hold1b, Hnew1b, Hoth1b.
  exists ta, tab, tb, tba. split_and!; [done..| |].
  - intros k. rewrite Hlab, Hlba, !Hla, !Hlb.
    rewrite (decide_False (P := k1 = k2)) by done.
    rewrite (decide_False (P := k2 = k1)) by congruence.
    repeat case_decide; congruence.
  - intros Hidx.
    assert (forall j, bucket_view tab j = bucket_view tba j) as Hviews.
    { intros j.
      destruct (decide (j = bucket_index t k1)) as [->|Hj1];
        [|destruct (decide (j = bucket_index t k2)) as [->|Hj2]].
      - rewrite (Hoth2a _ Hidx), Hnew1, Hnew1b.
        rewrite (Hoth2 _ Hidx), Hold1 in Hold1b. by injection Hold1b as <-.
      - rewrite Hnew2a, (Hoth1b _ Hj1), Hnew2.
        rewrite (Hoth1 _ Hj1), Hold2 in Hold2a. by injection Hold2a as <-.
      - by rewrite (Hoth2a _ Hj2), (Hoth1 _ Hj1), (Hoth1b _ Hj1), (Hoth2 _ Hj2). }
    split; [done|]. exists (dump tab).
    split; [by apply print_table_spec|].
    rewrite (print_table_spec tba Hwfba). do 2 f_equal.
    apply dump_ext; [congruence|done].
Qed.

Lemma insert_commute_witness :
  well_formed demo = true
  /\ PStr "Amy" <> PStr "Zoe"
  /\ exists ta tab tb tba,
       insert (PStr "Amy") (PStr "1") demo = Ok (tt, ta)
       /\ insert (PStr "Zoe") (PStr "2") ta = Ok (tt, tab)
       /\ insert (PStr "Zoe") (PStr "2") demo = Ok (tt, tb)
       /\ insert (PStr "Amy") (PStr "1") tb = Ok (tt, tba)
       /\ (forall k, lookup_contact tab k = lookup_contact tba k)
       /\ forall j, bucket_view tab j = bucket_view tba j.
Proof.
  split; [reflexivity|]. split; [done|].
  destruct (insert_commute demo (PStr "Amy") (PStr "1") (PStr "Zoe") (PStr "2")
              eq_refl ltac:(done))
    as (ta & tab & tb & tba & H1 & H2 & H3 & H4 & Hl & Hv).
  exists ta, tab, tb, tba. split_and!; [done..|].
  apply Hv. vm_compute. lia.
Defined.

(** ** Collisions of the hash *)

Lemma fold_ord_perm (l1 l2 : list ascii) acc :
  l1 ≡ₚ l2 ->
  fold_left (fun a c => a + ord c) l1 acc = fold_left (fun a c => a + ord c) l2 acc.
Proof.
  intros H. revert acc.
  induction H as [|x l1 l2 _ IH|x y l|l1 l2 l3 _ IH1 _ IH2]; intros acc; simpl.
  - done.
  - apply IH.
  - f_equal. lia.
  - by rewrite IH1.
Qed.

Lemma sum_ord_app s1 s2 : sum_ord (s1 +:+ s2) = sum_ord s1 + sum_ord s2.
Proof.
  induction s1 as [|c s1 IH].
  - change ("" +:+ s2) with s2. rewrite sum_ord_empty. lia.
  - change (String c s1 +:+ s2) with (String c (s1 +:+ s2)).
    rewrite !sum_ord_cons, IH. lia.
Qed.

(** X7. [hash_function] does not see the order of the characters: on a
    table of positive capacity, two strings with the same characters in any
    order get the same index, whatever the capacity; and for any two
    strings, the index of their concatenation is the sum of the two
    character-code sums modulo the capacity. *)
Theorem hash_anagram_collision (t : HashTable) :
  0 < size t ->
  (forall s1 s2 : string,
     String.list_ascii_of_string s1 ≡ₚ String.list_ascii_of_string s2 ->
     hash_function (PStr s1) t = hash_function (PStr s2) t
     /\ bucket_index t (PStr s1) = bucket_index t (PStr s2))
  /\ (forall s1 s2 : string,
        hash_function (PStr (s1 +:+ s2)) t
        = Ok ((sum_ord s1 + sum_ord s2) mod size t, t)).
Proof.
  intros Hs. split.
  - intros s1 s2 Hperm.
    assert (sum_ord s1 = sum_ord s2) as Heq by (by apply fold_ord_perm).
    split.
    + rewrite !hash_function_Ok by lia. simpl. by rewrite Heq.
    + unfold bucket_index. simpl. by rewrite Heq.
  - intros s1 s2. rewrite hash_function_Ok by lia. simpl. by rewrite sum_ord_app.
Qed.

Lemma hash_anagram_collision_witness :
  0 < size empty10
  /\ String.list_ascii_of_string "listen" ≡ₚ String.list_ascii_of_string "silent"
  /\ hash_function (PStr "listen") empty10 = hash_function (PStr "silent") empty10
  /\ hash_function (PStr ("a" +:+ "bc")) empty10
     = Ok ((sum_ord "a" + sum_ord "bc") mod 10, empty10).
Proof.
  assert (String.list_ascii_of_string "listen" ≡ₚ String.list_ascii_of_string "silent")
    as Hperm by (apply (bool_decide_unpack _); vm_compute; exact I).
  assert (0 < size empty10) as Hs by (vm_compute; reflexivity).
  split; [exact Hs|]. split; [exact Hperm|]. split.
  - apply (proj1 (hash_anagram_collision empty10 Hs) "listen" "silent" Hperm).
  - apply (proj2 (hash_anagram_collision empty10 Hs) "a" "bc").
Defined.

(** ** Sequences of calls *)

Lemma run_call_well_formed c t :
  well_formed t = true ->
  exists t', run_call c t = Ok (tt, t') /\ well_formed t' = true /\ size t' = size t.
Proof.
  intros Hwf. pose proof (well_formed_inv _ Hwf) as (chs & _ & Hpos & _).
  destruct c as [nm num|nm| |k]; simpl.
  - destruct (insert_view t nm num Hwf) as (t' & old & ? & ? & ? & _). eauto.
  - destruct (well_formed_bucket t nm Hwf) as [ch Hb].
    exists t. by rewrite (bind_Ok _ _ _ _ _ (search_spec _ _ _ Hpos Hb)).
  - exists t. by rewrite (bind_Ok _ _ _ _ _ (print_table_spec t Hwf)).
  - exists t. by rewrite (bind_Ok _ _ _ _ _ (hash_function_Ok t k ltac:(lia))).
Qed.

(** X8. After a successful [HashTable(...)], no sequence of calls of
    [insert], [search], [print_table] and [hash_function] raises an
    exception or loops for ever; the table stays well formed and its
    capacity is the one it was built with. *)
Theorem calls_never_raise (sz : option Z) (t0 : HashTable) (cs : list call) :
  HashTable_init sz = Ok t0 ->
  exists t,
    run_calls cs t0 = Ok (tt, t)
    /\ well_formed t = true
    /\ size t = default 10 sz
    /\ Z.of_nat (length (data t)) = default 10 sz.
Proof.
  intros Hi. pose proof (well_formed_init _ _ Hi) as Hwf.
  assert (size t0 = default 10 sz) as Hsz.
  { unfold HashTable_init in Hi. case_bool_decide; [done|]. by injection Hi as <-. }
  rewrite <- Hsz. clear Hi Hsz. revert t0 Hwf.
  induction cs as [|c cs IH]; intros t0 Hwf; simpl.
  - exists t0. split_and!; [done..|].
    by pose proof (well_formed_inv _ Hwf) as (chs & _ & _ & ? & _).
  - destruct (run_call_well_formed c t0 Hwf) as (t1 & H1 & Hwf1 & Hs1).
    destruct (IH t1 Hwf1) as (t2 & H2 & Hwf2 & Hs2 & Hl2).
    exists t2. rewrite (bind_Ok _ _ _ _ _ H1). split_and!; [done|done|..]; congruence.
Qed.

Lemma calls_never_raise_witness :
  HashTable_init (Some 3) = Ok (mkTable ∅ ∅ 3 [None; None; None])
  /\ exists t,
       run_calls [CallInsert (PStr "Amy") (PStr "1"); CallPrint;
                  CallInsert (PInt 7) (PInt 8); CallSearch (PStr "May");
                  CallInsert (PStr "May") (PStr ""); CallHash (PStr "")]
                 (mkTable ∅ ∅ 3 [None; None; None]) = Ok (tt, t)
       /\ well_formed t = true
       /\ size t = 3.
Proof.
  split; [reflexivity|].
  destruct (calls_never_raise (Some 3) (mkTable ∅ ∅ 3 [None; None; None])
              [CallInsert (PStr "Amy") (PStr "1"); CallPrint;
               CallInsert (PInt 7) (PInt 8); CallSearch (PStr "May");
               CallInsert (PStr "May") (PStr ""); CallHash (PStr "")] eq_refl)
    as (t & Hr & Hwf & Hs & _).
  exists t. split; [exact Hr|]. split; [exact Hwf|exact Hs].
Defined.
